(** * Mode-coupling deconvolution of pseudo-Cl spectra

    A shallow embedding of [sht/mask_deconvolution.py] (class
    [MaskDeconvolution]) in exact real arithmetic, and the properties of
    its coupling matrix, binning operators and decoupling step.

    Python floats are read as real numbers ([R], with [PI] for [np.pi]);
    Python ints that are sizes or multipoles are [nat], and signed
    intermediate values are [Z].  numpy arrays are lists, row-major for
    2-D arrays.  Python exceptions are values of [exn]; a method is a
    function from the instance to the instance after the call and either
    a value or the exception raised. *)

From Stdlib Require Import String Reals Lra Lia Arith ZArith Bool List.
Import ListNotations.

Set Implicit Arguments.

(** ** Exceptions and results *)

Inductive exn : Type :=
| AssertionError (msg : string)
| AttributeError (attr : string)
| IndexError
| ValueError
| ZeroDivisionError
| LinAlgError.

Inductive result (A : Type) : Type :=
| Ok (a : A)
| Raise (e : exn).

Arguments Ok {A} a.
Arguments Raise {A} e.

Definition rbind {A B : Type} (r : result A) (k : A -> result B) : result B :=
  match r with
  | Ok a => k a
  | Raise e => Raise e
  end.

Fixpoint rmap {A B : Type} (f : A -> result B) (l : list A) : result (list B) :=
  match l with
  | [] => Ok []
  | x :: t => rbind (f x) (fun y => rbind (rmap f t) (fun ys => Ok (y :: ys)))
  end.

(** ** Python integers and ranges *)

(** [a // b] on non-negative ints. *)
Definition floordiv (a b : nat) : result nat :=
  if (b =? 0)%nat then Raise ZeroDivisionError else Ok (a / b)%nat.

(** [abs(a - b)] *)
Definition abs_diff (a b : nat) : nat :=
  Z.abs_nat (Z.of_nat a - Z.of_nat b).

(** [range(lo, hi)] *)
Definition range (lo hi : nat) : list nat := seq lo (hi - lo).

(** [range(lo, hi, step)] for a positive step; its length is
    [ceil((hi - lo) / step)], as CPython computes it. *)
Definition range3 (lo hi step : nat) : list nat :=
  map (fun k => lo + k * step)%nat (seq 0 ((hi - lo + step - 1) / step)).

(** ** numpy arrays *)

Module np.

Definition vector := list R.
Definition matrix := list (list R).

Definition zeros (n : nat) : vector := repeat 0%R n.

Definition zeros2 (r c : nat) : matrix := repeat (zeros c) r.

(** [np.pad(v, (0, after), 'constant', constant_values=0)] *)
Definition pad (v : vector) (after : nat) : vector := v ++ repeat 0%R after.

Definition arange (n : nat) : vector := map INR (seq 0 n).

Definition sum (v : vector) : R := fold_right Rplus 0%R v.

(** [v[i]] for [i >= 0] *)
Definition getitem (v : vector) (i : nat) : result R :=
  match nth_error v i with
  | Some x => Ok x
  | None => Raise IndexError
  end.

Fixpoint update {A : Type} (i : nat) (f : A -> A) (l : list A) : list A :=
  match l, i with
  | [], _ => []
  | x :: t, O => f x :: t
  | x :: t, S i' => x :: update i' f t
  end.

(** [M[i, j] += x] *)
Definition iadd2 (M : matrix) (i j : nat) (x : R) : result matrix :=
  match nth_error M i with
  | Some row =>
      match nth_error row j with
      | Some _ => Ok (update i (update j (fun y => (y + x)%R)) M)
      | None => Raise IndexError
      end
  | None => Raise IndexError
  end.

(** [M[i, j] = x] *)
Definition setitem2 (M : matrix) (i j : nat) (x : R) : result matrix :=
  match nth_error M i with
  | Some row =>
      match nth_error row j with
      | Some _ => Ok (update i (update j (fun _ => x)) M)
      | None => Raise IndexError
      end
  | None => Raise IndexError
  end.

(** [row[lo:hi] = x]: a slice is clipped to the row, it never raises. *)
Fixpoint setslice (row : vector) (lo hi : nat) (x : R) : vector :=
  match row with
  | [] => []
  | y :: t =>
      match lo, hi with
      | _, O => y :: t
      | O, S h => x :: setslice t 0 h x
      | S l, S h => y :: setslice t l h x
      end
  end.

(** [M[r, lo:hi] = x]: the integer index [r] must be a row of [M]. *)
Definition setrowslice (M : matrix) (r lo hi : nat) (x : R) : result matrix :=
  match nth_error M r with
  | Some _ => Ok (update r (fun row => setslice row lo hi x) M)
  | None => Raise IndexError
  end.

(** [M /= x] *)
Definition idiv (M : matrix) (x : R) : matrix :=
  map (map (fun y => (y / x)%R)) M.

(** [M.T], for a matrix with at least one row. *)
Definition transpose (M : matrix) : matrix :=
  map (fun j => map (fun row => nth j row 0%R) M)
      (seq 0 (length (hd [] M))).

(** Inner product of two 1-D arrays; the lengths must agree. *)
Definition dot1 (u v : vector) : result R :=
  if (length u =? length v)%nat
  then Ok (sum (map (fun p => (fst p * snd p)%R) (combine u v)))
  else Raise ValueError.

(** [np.dot(A, v)] for a 2-D [A] and a 1-D [v]. *)
Definition dot (A : matrix) (v : vector) : result vector :=
  rmap (fun row => dot1 row v) A.

(** [np.matmul(u, B)] for a 1-D [u] and a 2-D [B]: [u] is a row vector. *)
Definition vecmat (u : vector) (B : matrix) : result vector :=
  if (length u =? length B)%nat
  then rmap (fun col => dot1 u col) (transpose B)
  else Raise ValueError.

(** [np.matmul(A, B)] for 2-D [A] and [B]. *)
Definition matmul (A B : matrix) : result matrix :=
  rmap (fun row => vecmat row B) A.

End np.

(** ** The Wigner 3j provider *)

Module threej000.

Definition triangle (l1 l2 l3 : nat) : bool :=
  ((abs_diff l1 l2 <=? l3) && (l3 <=? l1 + l2))%nat.

Definition Delta (l1 l2 l3 : nat) : R :=
  let J := (l1 + l2 + l3)%nat in
  (INR (fact (J - 2 * l1)) * INR (fact (J - 2 * l2)) * INR (fact (J - 2 * l3))
   / INR (fact (J + 1)))%R.

(** Modelled from the spec: the class [Wigner3j] of [threej000.py], which
    is imported by the source but is not part of it.  The spec describes
    it as a function that returns the value of the 3j symbol with all
    magnetic quantum numbers equal to zero; this is that symbol, in its
    closed form for an even sum [l1 + l2 + l3 = 2 g] inside the triangle
    window, and zero elsewhere.  The constructor argument [Nl] bounds the
    multipoles the table is built for and does not change the values. *)
Definition Wigner3j (Nl : nat) (l1 l2 l3 : nat) : R :=
  let J := (l1 + l2 + l3)%nat in
  let g := (J / 2)%nat in
  if triangle l1 l2 l3 && (J mod 2 =? 0)%nat
  then ((-1) ^ g * sqrt (Delta l1 l2 l3)
        * (INR (fact g)
           / (INR (fact (g - l1)) * INR (fact (g - l2)) * INR (fact (g - l3)))))%R
  else 0%R.

End threej000.

(** ** The instance and its methods *)

(** An attribute that is assigned after construction is [None] until its
    first assignment; reading it before then raises [AttributeError].
    [Mbb_inv] holds a Python object that the source compares with Python's
    [None]: the inner [None] is that value. *)
Record MaskDeconvolution : Type := mkMaskDeconvolution {
  lmax : nat;
  W_l : np.vector;
  w3j000 : nat -> nat -> nat -> R;
  Mll : option np.matrix;
  lperBin : option nat;
  bins : option np.matrix;
  bins_no_weight : option np.matrix;
  binned_ells : option np.vector;
  Mbb_inv : option (option np.matrix)
}.

Definition set_Mll (v : np.matrix) (s : MaskDeconvolution) : MaskDeconvolution :=
  mkMaskDeconvolution (lmax s) (W_l s) (w3j000 s) (Some v) (lperBin s)
    (bins s) (bins_no_weight s) (binned_ells s) (Mbb_inv s).

Definition set_lperBin (v : nat) (s : MaskDeconvolution) : MaskDeconvolution :=
  mkMaskDeconvolution (lmax s) (W_l s) (w3j000 s) (Mll s) (Some v)
    (bins s) (bins_no_weight s) (binned_ells s) (Mbb_inv s).

Definition set_bins (v : np.matrix) (s : MaskDeconvolution) : MaskDeconvolution :=
  mkMaskDeconvolution (lmax s) (W_l s) (w3j000 s) (Mll s) (lperBin s)
    (Some v) (bins_no_weight s) (binned_ells s) (Mbb_inv s).

Definition set_bins_no_weight (v : np.matrix) (s : MaskDeconvolution)
  : MaskDeconvolution :=
  mkMaskDeconvolution (lmax s) (W_l s) (w3j000 s) (Mll s) (lperBin s)
    (bins s) (Some v) (binned_ells s) (Mbb_inv s).

Definition set_binned_ells (v : np.vector) (s : MaskDeconvolution)
  : MaskDeconvolution :=
  mkMaskDeconvolution (lmax s) (W_l s) (w3j000 s) (Mll s) (lperBin s)
    (bins s) (bins_no_weight s) (Some v) (Mbb_inv s).

Definition set_Mbb_inv (v : option np.matrix) (s : MaskDeconvolution)
  : MaskDeconvolution :=
  mkMaskDeconvolution (lmax s) (W_l s) (w3j000 s) (Mll s) (lperBin s)
    (bins s) (bins_no_weight s) (binned_ells s) (Some v).

(** A method: the instance after the call, and the value returned or the
    exception raised.  What was assigned before an exception stays
    assigned. *)
Definition method (A : Type) : Type :=
  MaskDeconvolution -> MaskDeconvolution * result A.

Definition ret {A : Type} (a : A) : method A := fun s => (s, Ok a).

Definition raise {A : Type} (e : exn) : method A := fun s => (s, Raise e).

Definition bind {A B : Type} (m : method A) (k : A -> method B) : method B :=
  fun s =>
    match m s with
    | (s', Ok a) => k a s'
    | (s', Raise e) => (s', Raise e)
    end.

Definition lift {A : Type} (r : result A) : method A := fun s => (s, r).

Definition get : method MaskDeconvolution := fun s => (s, Ok s).

Definition modify (f : MaskDeconvolution -> MaskDeconvolution) : method unit :=
  fun s => (f s, Ok tt).

Definition getattr {A : Type} (name : string)
  (field : MaskDeconvolution -> option A) : method A :=
  fun s =>
    match field s with
    | Some a => (s, Ok a)
    | None => (s, Raise (AttributeError name))
    end.

Definition assert (b : bool) (msg : string) : method unit :=
  if b then ret tt else raise (AssertionError msg).

Declare Scope method_scope.
Delimit Scope method_scope with method.
Notation "x <- m ;; k" := (bind m (fun x => k))
  (at level 61, m at next level, right associativity) : method_scope.
Notation "m ;; k" := (bind m (fun _ => k))
  (at level 61, right associativity) : method_scope.
Local Open Scope method_scope.

(** [for x in xs: a = body(x, a)], with the loop's local variables in [a]. *)
Fixpoint for_ {A : Type} (xs : list nat) (body : nat -> A -> method A) (a : A)
  : method A :=
  match xs with
  | [] => ret a
  | x :: t => a' <- body x a ;; for_ t body a'
  end.

Definition msg_C_l : string :=
  "C_l must be provided up to the lmax with which the class was initialized".

Definition msg_call_first : string :=
  "Must call __call__ before convolving theory Cls".

Definition msg_Clt : string := "Clt must be provided up to the lmax".

(** [MaskDeconvolution.W] *)
Definition W (l : nat) (debug : bool) : method R :=
  if debug then
    if (l =? 0)%nat then ret (4 * PI)%R else ret 0%R
  else
    self <- get ;;
    lift (np.getitem (W_l self) l).

(** [MaskDeconvolution.get_M] *)
Definition get_M (debug : bool) : method np.matrix :=
  self <- get ;;
  let M := np.zeros2 (lmax self + 1) (lmax self + 1) in
  M <- for_ (range 0 (lmax self + 1)) (fun l1 M =>
         for_ (range 0 (lmax self + 1)) (fun l2 M =>
           for_ (range (abs_diff l1 l2) (l1 + l2 + 1)) (fun l3 M =>
             if ((l1 + l2 + l3) mod 2 =? 0)%nat then
               w <- W l3 debug ;;
               lift (np.iadd2 M l1 l2
                       (INR ((2 * l2 + 1) * (2 * l3 + 1))
                        * (w3j000 self l1 l2 l3) ^ 2 * w)%R)
             else ret M) M) M) M ;;
  ret (np.idiv M (4 * PI)%R).

(** [MaskDeconvolution.init_binning] *)
Definition init_binning : method unit :=
  self <- get ;;
  w <- getattr "lperBin" lperBin ;;
  n <- lift (floordiv (lmax self + 1) w) ;;
  modify (set_bins (np.zeros2 n (lmax self + 1))) ;;
  b <- getattr "bins" bins ;;
  modify (set_bins_no_weight b) ;;
  for_ (range3 0 (lmax self + 1) w) (fun i _ =>
    q <- lift (floordiv i w) ;;
    b <- getattr "bins" bins ;;
    b' <- lift (np.setrowslice b q i (i + w) (1 / INR w)%R) ;;
    modify (set_bins b') ;;
    u <- getattr "bins_no_weight" bins_no_weight ;;
    u' <- lift (np.setrowslice u q i (i + w) 1%R) ;;
    modify (set_bins_no_weight u')) tt ;;
  b <- getattr "bins" bins ;;
  b' <- lift (np.setitem2 b 0 0 0%R) ;;
  modify (set_bins b') ;;
  u <- getattr "bins_no_weight" bins_no_weight ;;
  u' <- lift (np.setitem2 u 0 0 0%R) ;;
  modify (set_bins_no_weight u') ;;
  b <- getattr "bins" bins ;;
  ells <- lift (np.dot b (np.arange (lmax self + 1))) ;;
  modify (set_binned_ells ells).

(** [MaskDeconvolution.bin_matrix] *)
Definition bin_matrix (M : np.matrix) : method np.matrix :=
  b <- getattr "bins" bins ;;
  t <- lift (np.matmul b M) ;;
  u <- getattr "bins_no_weight" bins_no_weight ;;
  lift (np.matmul t (np.transpose u)).

(** [MaskDeconvolution.bin_Cls] *)
Definition bin_Cls (Cl : np.vector) : method np.vector :=
  b <- getattr "bins" bins ;;
  lift (np.dot b Cl).

(** [MaskDeconvolution.decouple_Cls] *)
Definition decouple_Cls (Minv : np.matrix) (Cb : np.vector) : method np.vector :=
  lift (np.vecmat Cb Minv).

Section Collaborators.

(** The imported class [Wigner3j]: the constructor argument, then the
    three multipoles of a call. *)
Variable Wigner3j : nat -> nat -> nat -> nat -> R.

(** [np.linalg.inv]; it raises [LinAlgError] on a singular matrix. *)
Variable linalg_inv : np.matrix -> result np.matrix.

(** [MaskDeconvolution.__init__]; the progress messages printed when
    [verbose] is set are not part of the instance. *)
Definition __init__ (lmax : nat) (W_l : np.vector) : result MaskDeconvolution :=
  let pad := Z.max 0 (2 * Z.of_nat lmax + 1 - Z.of_nat (length W_l)) in
  let self :=
    mkMaskDeconvolution lmax (np.pad W_l (Z.to_nat pad))
      (Wigner3j (2 * lmax + 1)) None None None None None None in
  match get_M false self with
  | (self, Ok M) => Ok (set_Mll M self)
  | (_, Raise e) => Raise e
  end.

(** [MaskDeconvolution.__call__]; [decouple_Cls] is given [self.Mbb_inv],
    which is the matrix assigned two statements before. *)
Definition __call__ (C_l : np.vector) (lperBin : nat)
  : method (np.vector * np.vector) :=
  self <- get ;;
  assert (length C_l =? lmax self + 1)%nat msg_C_l ;;
  modify (set_lperBin lperBin) ;;
  init_binning ;;
  M <- getattr "Mll" Mll ;;
  Mbb <- bin_matrix M ;;
  Minv <- lift (linalg_inv Mbb) ;;
  modify (set_Mbb_inv (Some Minv)) ;;
  Cb <- bin_Cls C_l ;;
  Cb_decoupled <- decouple_Cls Minv Cb ;;
  ells <- getattr "binned_ells" binned_ells ;;
  ret (ells, Cb_decoupled).

(** [MaskDeconvolution.convolve_theory_Cls] *)
Definition convolve_theory_Cls (Clt : np.vector) : method np.vector :=
  inv <- getattr "Mbb_inv" Mbb_inv ;;
  match inv with
  | None => raise (AssertionError msg_call_first)
  | Some Minv =>
      self <- get ;;
      assert (length Clt =? lmax self + 1)%nat msg_Clt ;;
      M <- getattr "Mll" Mll ;;
      v <- lift (np.dot M Clt) ;;
      Cb <- bin_Cls v ;;
      decouple_Cls Minv Cb
  end.

End Collaborators.

(** ** Histories of calls on one instance *)

Inductive operation : Type :=
| Deconvolve (C_l : np.vector) (lperBin : nat)
| ConvolveTheory (Clt : np.vector).

(** The instance after one call, whether the call returned or raised. *)
Definition after (linalg_inv : np.matrix -> result np.matrix)
  (s : MaskDeconvolution) (op : operation) : MaskDeconvolution :=
  match op with
  | Deconvolve C_l w => fst (__call__ linalg_inv C_l w s)
  | ConvolveTheory Clt => fst (convolve_theory_Cls Clt s)
  end.

Definition after_all (linalg_inv : np.matrix -> result np.matrix)
  (s : MaskDeconvolution) (history : list operation) : MaskDeconvolution :=
  fold_left (after linalg_inv) history s.

(** ** The quantities the properties are stated with *)

Local Open Scope R_scope.

(** [M[i, j]] read from the row-major list. *)
Definition entry (M : np.matrix) (i j : nat) : R := nth j (nth i M []) 0.

(** [M] is an array of [r] rows and [c] columns. *)
Definition shape (r c : nat) (M : np.matrix) : Prop :=
  length M = r /\ Forall (fun row => length row = c) M.

(** Sum of [f k] for [0 <= k < n]. *)
Definition bigsum (n : nat) (f : nat -> R) : R := np.sum (map f (seq 0 n)).

(** The window value [W(l)] of an instance outside debug mode. *)
Definition window (s : MaskDeconvolution) (l : nat) : R := nth l (W_l s) 0.

(** The debug window: [4 pi] at [l = 0] and [0] elsewhere. *)
Definition debug_window (l : nat) : R := if (l =? 0)%nat then 4 * PI else 0.

(** One term of the coupling sum. *)
Definition coupling_term (w3j : nat -> nat -> nat -> R) (Wf : nat -> R)
  (l1 l2 l3 : nat) : R :=
  INR (2 * l2 + 1) * INR (2 * l3 + 1) * (w3j l1 l2 l3) ^ 2 * Wf l3.

(** The coupling sum as the specification words it: over [l3] from
    [|l1 - l2|] to [l1 + l2] with [l1 + l2 + l3] even. *)
Definition coupling_sum (w3j : nat -> nat -> nat -> R) (Wf : nat -> R)
  (l1 l2 : nat) : R :=
  np.sum (map (coupling_term w3j Wf l1 l2)
            (filter (fun l3 => Nat.even (l1 + l2 + l3))
               (seq (abs_diff l1 l2) (l1 + l2 + 1 - abs_diff l1 l2)))).

(** Sum of row [b] of a binning operator. *)
Definition row_sum (B : np.matrix) (b : nat) : R := np.sum (nth b B []).

(** Arithmetic mean of a list of multipoles. *)
Definition mean (ls : list nat) : R := np.sum (map INR ls) / INR (length ls).

(** The multipoles that bin [b] of an operator includes: those with a
    nonzero weight in row [b]. *)
Definition included (B : np.matrix) (b : nat) : list nat :=
  filter (fun l => if Req_dec_T (entry B b l) 0 then false else true)
    (seq 0 (length (nth b B []))).

(** Matrix products as index sums, for comparison with [np.matmul] and
    [np.dot]: [A] is [r x n], [B] is [n x c]. *)
Definition table (r c : nat) (f : nat -> nat -> R) : np.matrix :=
  map (fun i => map (fun j => f i j) (seq 0 c)) (seq 0 r).

Definition product (r n c : nat) (A B : np.matrix) : np.matrix :=
  table r c (fun i j => bigsum n (fun k => entry A i k * entry B k j)).

Definition transposed (r c : nat) (A : np.matrix) : np.matrix :=
  table c r (fun i j => entry A j i).

(** [A v] for a column vector [v] of length [n]. *)
Definition times_column (r n : nat) (A : np.matrix) (v : np.vector) : np.vector :=
  map (fun i => bigsum n (fun k => entry A i k * nth k v 0)) (seq 0 r).

(** [u B] for a row vector [u] of length [n]. *)
Definition row_times (n c : nat) (u : np.vector) (B : np.matrix) : np.vector :=
  map (fun j => bigsum n (fun i => nth i u 0 * entry B i j)) (seq 0 c).

(** The binning operators in closed form: row [b] carries the weight [v]
    on the block [b w, ..., b w + w - 1] of a row of length [L]; the
    weight of the monopole in the first row is then set to zero. *)
Definition block_row (L w b : nat) (v : R) : np.vector :=
  repeat 0 (b * w) ++ repeat v w ++ repeat 0 (L - b * w - w).

Definition block_operator (L w : nat) (v : R) : np.matrix :=
  np.update 0 (np.update 0 (fun _ => 0))
    (map (fun b => block_row L w b v) (seq 0 (L / w))).

(** The operators after the first [k] blocks have been written into an
    array of [Nb] rows of zeros. *)
Definition partial_rows (L w Nb k : nat) (v : R) : np.matrix :=
  map (fun b => block_row L w b v) (seq 0 k) ++ repeat (np.zeros L) (Nb - k).

(** ** What a call keeps and what it returns *)

(** [s'] has the attributes that the constructor assigned to [s]. *)
Definition frame (s s' : MaskDeconvolution) : Prop :=
  lmax s' = lmax s /\ W_l s' = W_l s /\ w3j000 s' = w3j000 s /\ Mll s' = Mll s.

(** A method that leaves those attributes as they are, whether it returns
    or raises. *)
Definition preserves {A : Type} (m : method A) : Prop :=
  forall s, frame s (fst (m s)).

(** The bin centres [np.dot(bins, np.arange(lmax + 1))] of an operator. *)
Definition centres (L : nat) (B : np.matrix) : np.vector :=
  map (fun row => np.sum (map (fun p => fst p * snd p)
                            (combine row (np.arange L)))) B.

(** The outcome of [__call__] written as a function of [lmax], [Mll] and
    the arguments of the call alone, for comparison with the method. *)
Definition call_value (linalg_inv : np.matrix -> result np.matrix)
  (lmax0 : nat) (M : option np.matrix) (C_l : np.vector) (w : nat)
  : result (np.vector * np.vector) :=
  if negb (length C_l =? lmax0 + 1)%nat then Raise (AssertionError msg_C_l)
  else if (w =? 0)%nat then Raise ZeroDivisionError
  else if negb ((lmax0 + 1) mod w =? 0)%nat then Raise IndexError
  else
    match M with
    | None => Raise (AttributeError "Mll")
    | Some M =>
        let B := block_operator (lmax0 + 1) w (1 / INR w) in
        let U := block_operator (lmax0 + 1) w 1 in
        rbind (np.matmul B M) (fun t =>
        rbind (np.matmul t (np.transpose U)) (fun Mbb =>
        rbind (linalg_inv Mbb) (fun Minv =>
        rbind (np.dot B C_l) (fun Cb =>
        rbind (np.vecmat Cb Minv) (fun Cb_decoupled =>
        Ok (centres (lmax0 + 1) B, Cb_decoupled))))))
    end.

(** ** An exact inverse for running the methods on concrete matrices *)

Definition drop_nth (j : nat) (row : np.vector) : np.vector :=
  firstn j row ++ skipn (S j) row.

Definition minor (i j : nat) (A : np.matrix) : np.matrix :=
  map (drop_nth j) (firstn i A ++ skipn (S i) A).

(** Determinant of an [n x n] matrix, expanded along its first row. *)
Fixpoint det (n : nat) (A : np.matrix) : R :=
  match n with
  | O => 1
  | S n' =>
      match A with
      | [] => 0
      | row :: rest =>
          bigsum n (fun j => (-1) ^ j * nth j row 0 * det n' (map (drop_nth j) rest))
      end
  end.

(** [np.linalg.inv] in exact arithmetic, by cofactors: [LinAlgError] for a
    matrix that is not square or has determinant zero. *)
Definition cofactor_inv (A : np.matrix) : result np.matrix :=
  let n := length A in
  if forallb (fun row => (length row =? n)%nat) A then
    if Req_dec_T (det n A) 0 then Raise LinAlgError
    else Ok (table n n (fun i j =>
               (-1) ^ (i + j) * det (n - 1) (minor j i A) / det n A))
  else Raise LinAlgError.

(** ** The alternative binning matrix *)

(** What [binning_matrix] raises: a built-in exception or the
    [RuntimeError] of its own. *)
Inductive raised : Type :=
| Builtin (e : exn)
| RuntimeError (msg : string).

(** [int(np.ceil(x))] *)
Definition ceil (x : R) : Z :=
  if Req_dec_T (IZR (up x - 1)) x then (up x - 1)%Z else up x.

(** The function [dell] that [type] selects, [None] for an unknown
    [type]; [step] is a non-negative int. *)
Definition dell_of (type : string) (step : nat) : option (nat -> nat) :=
  if String.eqb type "linear" then Some (fun _ => step)
  else if String.eqb type "sqrt" then
    Some (fun ell => Z.to_nat (ceil (sqrt (4 * INR ell) + INR step)))
  else None.

(** The [while] loop of [binning_matrix], at most [fuel] iterations of
    it: [None] when they are used up, otherwise the array and [ii] at the
    exit, or the exception raised. *)
Fixpoint binning_loop (fuel : nat) (dell : nat -> nat) (Nl : nat)
  (bins : np.matrix) (ii l0 l1 : nat) : option (result (np.matrix * nat)) :=
  match fuel with
  | O => None
  | S fuel' =>
      if (l1 <=? Nl)%nat then
        match
          rbind (if (l1 - l0 =? 0)%nat then Raise ZeroDivisionError
                 else Ok (1 / INR (l1 - l0)))
            (fun x => np.setrowslice bins ii l0 (Nat.min l1 Nl) x)
        with
        | Ok bins' =>
            binning_loop fuel' dell Nl bins' (ii + 1) l1 (l1 + dell l1)
        | Raise e => Some (Raise e)
        end
      else Some (Ok (bins, ii))
  end.

(** [MaskDeconvolution.binning_matrix]; it reads [lmax] and assigns
    nothing.  [step] is the size of a step, a non-negative int; a negative
    one is outside this definition.  The loop runs at most [lmax + 1]
    times. *)
Definition binning_matrix (type : string) (step : nat)
  (self : MaskDeconvolution) : option (np.matrix + raised) :=
  let Nl := (lmax self + 1)%nat in
  let bins := np.zeros2 Nl Nl in
  match dell_of type step with
  | None => Some (inr (RuntimeError "Unknown step type."))
  | Some dell =>
      match binning_loop (Nl + 1) dell Nl bins 0 2 (2 + dell 2%nat) with
      | None => None
      | Some (Raise e) => Some (inr (Builtin e))
      | Some (Ok (bins, ii)) => Some (inl (firstn ii bins))
      end
  end.

(** The bin boundaries of [binning_matrix]: [l0] at the start of
    iteration [k] of its loop. *)
Fixpoint edge (dell : nat -> nat) (k : nat) : nat :=
  match k with
  | O => 2%nat
  | S k' => (edge dell k' + dell (edge dell k'))%nat
  end.

(** A row with the weight [1 / d] on the [d] multipoles from [a] on. *)
Definition span_row (Nl a d : nat) : np.vector :=
  repeat 0 a ++ repeat (1 / INR d) d ++ repeat 0 (Nl - a - d).

(** The array of [binning_matrix] after [k] iterations of its loop. *)
Definition span_rows (dell : nat -> nat) (Nl k : nat) : np.matrix :=
  map (fun i => span_row Nl (edge dell i) (dell (edge dell i))) (seq 0 k)
  ++ repeat (np.zeros Nl) (Nl - k).

Unset Implicit Arguments.

(** ** Lists updated in place *)

Lemma length_update (A : Type) (f : A -> A) (l : list A) (i : nat) :
  length (np.update i f l) = length l.
Proof.
  revert i; induction l as [|x t IH]; intros [|i]; simpl; auto.
Qed.

Lemma nth_update_same (A : Type) (f : A -> A) (l : list A) (i : nat) (d : A) :
  (i < length l)%nat -> nth i (np.update i f l) d = f (nth i l d).
Proof.
  revert i; induction l as [|x t IH]; intros [|i] H; simpl in *; try lia; auto.
  apply IH; lia.
Qed.

Lemma nth_update_other (A : Type) (f : A -> A) (l : list A) (i k : nat) (d : A) :
  k <> i -> nth k (np.update i f l) d = nth k l d.
Proof.
  revert i k; induction l as [|x t IH]; intros [|i] [|k] H; simpl; auto; try lia.
Qed.

Lemma Forall_update (A : Type) (P : A -> Prop) (f : A -> A) (l : list A) (i : nat) :
  (forall x, P x -> P (f x)) -> Forall P l -> Forall P (np.update i f l).
Proof.
  intros Hf; revert i; induction l as [|x t IH]; intros [|i] H; simpl; auto;
    inversion H; subst; constructor; auto.
Qed.

Lemma nth_error_in_range (A : Type) (l : list A) (i : nat) (d : A) :
  (i < length l)%nat -> nth_error l i = Some (nth i l d).
Proof.
  revert i; induction l as [|x t IH]; intros [|i] H; simpl in *; try lia; auto.
  apply IH; lia.
Qed.

Lemma shape_row (r c : nat) (M : np.matrix) (i : nat) :
  shape r c M -> (i < r)%nat -> length (nth i M []) = c.
Proof.
  intros [Hr Hc] Hi. rewrite Forall_forall in Hc. apply Hc, nth_In. lia.
Qed.

Lemma shape_zeros2 (r c : nat) : shape r c (np.zeros2 r c).
Proof.
  split.
  - apply repeat_length.
  - apply Forall_forall. intros x Hx. apply repeat_spec in Hx. subst.
    apply repeat_length.
Qed.

Lemma entry_zeros2 (r c i j : nat) : entry (np.zeros2 r c) i j = 0.
Proof.
  unfold entry, np.zeros2, np.zeros.
  destruct (Nat.lt_ge_cases i r) as [Hi|Hi].
  - rewrite nth_repeat_lt by exact Hi.
    destruct (Nat.lt_ge_cases j c) as [Hj|Hj].
    + now rewrite nth_repeat_lt.
    + apply nth_overflow. now rewrite repeat_length.
  - rewrite (nth_overflow (repeat (repeat 0 c) r)) by now rewrite repeat_length.
    now destruct j.
Qed.

Lemma entry_idiv (M : np.matrix) (x : R) (i j : nat) :
  entry (np.idiv M x) i j = entry M i j / x.
Proof.
  unfold entry, np.idiv.
  pose proof (map_nth (map (fun y => y / x)) M [] i) as Hrow.
  simpl in Hrow. rewrite Hrow.
  pose proof (map_nth (fun y => y / x) (nth i M []) 0 j) as Hcol.
  cbv beta in Hcol.
  replace (0 / x) with 0 in Hcol by (unfold Rdiv; ring).
  exact Hcol.
Qed.

Lemma shape_idiv (r c : nat) (M : np.matrix) (x : R) :
  shape r c M -> shape r c (np.idiv M x).
Proof.
  intros [Hr Hc]. split.
  - unfold np.idiv. now rewrite length_map.
  - unfold np.idiv. apply Forall_map. revert Hc. apply Forall_impl.
    intros row H. now rewrite length_map.
Qed.

(** [M[i, j] += x] inside the array: the entry grows by [x], the others
    and the shape stay. *)
Lemma iadd2_in_range (r c : nat) (M : np.matrix) (i j : nat) (x : R) :
  shape r c M -> (i < r)%nat -> (j < c)%nat ->
  exists M', np.iadd2 M i j x = Ok M' /\ shape r c M' /\
    forall a b, entry M' a b =
      entry M a b + (if ((a =? i) && (b =? j))%nat then x else 0).
Proof.
  intros HM Hi Hj.
  pose proof (shape_row r c M i HM Hi) as Hrow.
  destruct HM as [Hr Hc].
  unfold np.iadd2.
  rewrite (nth_error_in_range _ M i []) by lia.
  rewrite (nth_error_in_range _ (nth i M []) j 0) by lia.
  eexists; split; [reflexivity|]. split.
  - split.
    + now rewrite length_update.
    + apply Forall_update; [|exact Hc]. intros row H. now rewrite length_update.
  - intros a b. unfold entry.
    destruct (Nat.eqb_spec a i) as [->|Ha]; simpl.
    + rewrite nth_update_same by lia.
      destruct (Nat.eqb_spec b j) as [->|Hb].
      * now rewrite nth_update_same by lia.
      * rewrite nth_update_other by exact Hb. ring.
    + rewrite nth_update_other by exact Ha. ring.
Qed.
Lemma even_mod2 (k : nat) : Nat.even k = (k mod 2 =? 0)%nat.
Proof.
  destruct (Nat.even k) eqn:E.
  - apply Nat.even_spec in E. destruct E as [m ->].
    symmetry. apply Nat.eqb_eq. rewrite Nat.mul_comm. apply Nat.Div0.mod_mul.
  - assert (Ho : Nat.odd k = true) by (rewrite <- Nat.negb_even, E; reflexivity).
    apply Nat.odd_spec in Ho. destruct Ho as [m ->].
    symmetry. apply Nat.eqb_neq.
    rewrite Nat.add_comm, Nat.mul_comm, Nat.Div0.mod_add. simpl. lia.
Qed.

Lemma sum_cons (x : R) (v : np.vector) : np.sum (x :: v) = x + np.sum v.
Proof. reflexivity. Qed.

Lemma sum_app (u v : np.vector) : np.sum (u ++ v) = np.sum u + np.sum v.
Proof.
  induction u as [|x t IH]; simpl; [ring|]. rewrite IH. ring.
Qed.

(** ** Running a method step by step *)

Lemma bind_run (A B : Type) (m : method A) (k : A -> method B)
  (s : MaskDeconvolution) :
  bind m k s =
  match m s with
  | (s', Ok a) => k a s'
  | (s', Raise e) => (s', Raise e)
  end.
Proof. reflexivity. Qed.

Lemma bind_ok (A B : Type) (m : method A) (k : A -> method B)
  (s s' : MaskDeconvolution) (a : A) :
  m s = (s', Ok a) -> bind m k s = k a s'.
Proof. intros H. now rewrite bind_run, H. Qed.

Lemma bind_raise (A B : Type) (m : method A) (k : A -> method B)
  (s s' : MaskDeconvolution) (e : exn) :
  m s = (s', Raise e) -> bind m k s = (s', Raise e).
Proof. intros H. now rewrite bind_run, H. Qed.

Lemma lift_run (A : Type) (r : result A) (s : MaskDeconvolution) :
  lift r s = (s, r).
Proof. reflexivity. Qed.

Lemma ret_run (A : Type) (a : A) (s : MaskDeconvolution) : ret a s = (s, Ok a).
Proof. reflexivity. Qed.

Lemma get_run (s : MaskDeconvolution) : get s = (s, Ok s).
Proof. reflexivity. Qed.

Lemma modify_run (f : MaskDeconvolution -> MaskDeconvolution)
  (s : MaskDeconvolution) : modify f s = (f s, Ok tt).
Proof. reflexivity. Qed.

Ltac bool_cases :=
  repeat match goal with
    | |- context [(?a =? ?b)%nat] => destruct (Nat.eqb_spec a b)
    | |- context [(?a <=? ?b)%nat] => destruct (Nat.leb_spec a b)
    | |- context [(?a <? ?b)%nat] => destruct (Nat.ltb_spec a b)
    end;
  cbn [andb orb negb]; try (exfalso; lia); subst; try ring.

Section CouplingMatrix.

Variable s : MaskDeconvolution.
Variable debug : bool.
Variable Wf : nat -> R.
Hypothesis W_reads :
  forall l, (l <= 2 * lmax s)%nat -> W l debug s = (s, Ok (Wf l)).

Lemma get_M_loop_l3 (l1 l2 : nat) :
  (l1 < lmax s + 1)%nat -> (l2 < lmax s + 1)%nat ->
  forall (xs : list nat) (M0 : np.matrix),
    (forall l3, In l3 xs -> (l3 <= 2 * lmax s)%nat) ->
    shape (lmax s + 1) (lmax s + 1) M0 ->
    exists M',
      for_ xs (fun l3 M =>
        if ((l1 + l2 + l3) mod 2 =? 0)%nat then
          (w <- W l3 debug ;;
           lift (np.iadd2 M l1 l2
                   (INR ((2 * l2 + 1) * (2 * l3 + 1))
                    * (w3j000 s l1 l2 l3) ^ 2 * w)))%method
        else ret M) M0 s = (s, Ok M')
      /\ shape (lmax s + 1) (lmax s + 1) M'
      /\ forall a b, entry M' a b =
           entry M0 a b +
           (if ((a =? l1) && (b =? l2))%nat
            then np.sum (map (coupling_term (w3j000 s) Wf l1 l2)
                           (filter (fun l3 => Nat.even (l1 + l2 + l3)) xs))
            else 0).
Proof.
  intros H1 H2. induction xs as [|x t IH]; intros M0 Hx HM.
  - exists M0. split; [reflexivity|]. split; [exact HM|].
    intros a b. simpl. destruct ((a =? l1) && (b =? l2))%nat; ring.
  - cbn [for_ filter]. rewrite <- even_mod2.
    destruct (Nat.even (l1 + l2 + x)) eqn:E.
    + rewrite bind_run.
      rewrite (bind_ok _ _ _ _ s s (Wf x) (W_reads x (Hx x (or_introl eq_refl)))).
      rewrite lift_run.
      destruct (iadd2_in_range _ _ M0 l1 l2
                  (INR ((2 * l2 + 1) * (2 * x + 1)) * w3j000 s l1 l2 x ^ 2 * Wf x)
                  HM H1 H2) as (M1 & -> & HM1 & E1).
      destruct (IH M1 (fun l3 H => Hx l3 (or_intror H)) HM1) as (M' & -> & HM' & E').
      exists M'. split; [reflexivity|]. split; [exact HM'|].
      intros a b. rewrite E', E1. cbn [map]. rewrite sum_cons.
      unfold coupling_term. rewrite mult_INR.
      destruct ((a =? l1) && (b =? l2))%nat; ring.
    + rewrite bind_run, ret_run.
      destruct (IH M0 (fun l3 H => Hx l3 (or_intror H)) HM) as (M' & -> & HM' & E').
      exists M'. split; [reflexivity|]. split; [exact HM'|]. exact E'.
Qed.

Lemma get_M_loop_l2 (l1 : nat) :
  (l1 < lmax s + 1)%nat ->
  forall (k lo : nat) (M0 : np.matrix),
    (lo + k <= lmax s + 1)%nat ->
    shape (lmax s + 1) (lmax s + 1) M0 ->
    exists M',
      for_ (seq lo k) (fun l2 M =>
        for_ (range (abs_diff l1 l2) (l1 + l2 + 1)) (fun l3 M =>
          if ((l1 + l2 + l3) mod 2 =? 0)%nat then
            (w <- W l3 debug ;;
             lift (np.iadd2 M l1 l2
                     (INR ((2 * l2 + 1) * (2 * l3 + 1))
                      * (w3j000 s l1 l2 l3) ^ 2 * w)))%method
          else ret M) M) M0 s = (s, Ok M')
      /\ shape (lmax s + 1) (lmax s + 1) M'
      /\ forall a b, entry M' a b =
           entry M0 a b +
           (if ((a =? l1) && (lo <=? b) && (b <? lo + k))%nat
            then coupling_sum (w3j000 s) Wf l1 b else 0).
Proof.
  intros H1. induction k as [|k IH]; intros lo M0 Hk HM.
  - exists M0. split; [reflexivity|]. split; [exact HM|].
    intros a b. bool_cases.
  - cbn [for_ seq]. rewrite bind_run.
    assert (Hlo : (lo < lmax s + 1)%nat) by lia.
    destruct (get_M_loop_l3 l1 lo H1 Hlo (range (abs_diff l1 lo) (l1 + lo + 1)) M0)
      as (M1 & -> & HM1 & E1); [|exact HM|].
    { intros l3 Hin. unfold range in Hin. apply in_seq in Hin.
      unfold abs_diff in Hin. lia. }
    destruct (IH (S lo) M1) as (M' & -> & HM' & E'); [lia|exact HM1|].
    exists M'. split; [reflexivity|]. split; [exact HM'|].
    intros a b. rewrite E', E1.
    change (np.sum (map (coupling_term (w3j000 s) Wf l1 lo)
              (filter (fun l3 => Nat.even (l1 + lo + l3))
                 (range (abs_diff l1 lo) (l1 + lo + 1)))))
      with (coupling_sum (w3j000 s) Wf l1 lo).
    bool_cases.
Qed.

Lemma get_M_loop_l1 :
  forall (k lo : nat) (M0 : np.matrix),
    (lo + k <= lmax s + 1)%nat ->
    shape (lmax s + 1) (lmax s + 1) M0 ->
    exists M',
      for_ (seq lo k) (fun l1 M =>
        for_ (range 0 (lmax s + 1)) (fun l2 M =>
          for_ (range (abs_diff l1 l2) (l1 + l2 + 1)) (fun l3 M =>
            if ((l1 + l2 + l3) mod 2 =? 0)%nat then
              (w <- W l3 debug ;;
               lift (np.iadd2 M l1 l2
                       (INR ((2 * l2 + 1) * (2 * l3 + 1))
                        * (w3j000 s l1 l2 l3) ^ 2 * w)))%method
            else ret M) M) M) M0 s = (s, Ok M')
      /\ shape (lmax s + 1) (lmax s + 1) M'
      /\ forall a b, entry M' a b =
           entry M0 a b +
           (if ((lo <=? a) && (a <? lo + k) && (b <? lmax s + 1))%nat
            then coupling_sum (w3j000 s) Wf a b else 0).
Proof.
  induction k as [|k IH]; intros lo M0 Hk HM.
  - exists M0. split; [reflexivity|]. split; [exact HM|].
    intros a b. bool_cases.
  - cbn [for_ seq]. rewrite bind_run.
    assert (Hlo : (lo < lmax s + 1)%nat) by lia.
    unfold range at 1. rewrite Nat.sub_0_r.
    destruct (get_M_loop_l2 lo Hlo (lmax s + 1) 0 M0) as (M1 & -> & HM1 & E1);
      [lia|exact HM|].
    destruct (IH (S lo) M1) as (M' & -> & HM' & E'); [lia|exact HM1|].
    exists M'. split; [reflexivity|]. split; [exact HM'|].
    intros a b. rewrite E', E1. bool_cases.
Qed.

Lemma get_M_entries :
  exists M,
    get_M debug s = (s, Ok M)
    /\ shape (lmax s + 1) (lmax s + 1) M
    /\ forall l1 l2, (l1 <= lmax s)%nat -> (l2 <= lmax s)%nat ->
         entry M l1 l2 = coupling_sum (w3j000 s) Wf l1 l2 / (4 * PI).
Proof.
  unfold get_M. rewrite bind_run, get_run. cbv zeta. rewrite bind_run.
  unfold range at 1. rewrite Nat.sub_0_r.
  destruct (get_M_loop_l1 (lmax s + 1) 0 (np.zeros2 (lmax s + 1) (lmax s + 1)))
    as (M1 & -> & HM1 & E1); [lia|apply shape_zeros2|].
  rewrite ret_run. eexists. split; [reflexivity|]. split.
  - now apply shape_idiv.
  - intros l1 l2 H1 H2. rewrite entry_idiv, E1, entry_zeros2. bool_cases.
    unfold Rdiv. ring.
Qed.

End CouplingMatrix.

(** ** Reading the window function *)

Lemma W_debug (s : MaskDeconvolution) (l : nat) :
  W l true s = (s, Ok (debug_window l)).
Proof.
  unfold W, debug_window. destruct (l =? 0)%nat; reflexivity.
Qed.

Lemma W_in_range (s : MaskDeconvolution) (l : nat) :
  (l < length (W_l s))%nat -> W l false s = (s, Ok (window s l)).
Proof.
  intros H. unfold W, window. rewrite bind_run, get_run, lift_run.
  unfold np.getitem. now rewrite (nth_error_in_range _ (W_l s) l 0).
Qed.

Lemma W_out_of_range (s : MaskDeconvolution) (l : nat) :
  (length (W_l s) <= l)%nat -> W l false s = (s, Raise IndexError).
Proof.
  intros H. unfold W. rewrite bind_run, get_run, lift_run.
  unfold np.getitem. apply nth_error_None in H. now rewrite H.
Qed.

(** ** The constructor *)

Lemma pad_length (lmax0 : nat) (W0 : np.vector) :
  (2 * lmax0 + 1 <=
   length (np.pad W0
             (Z.to_nat (Z.max 0 (2 * Z.of_nat lmax0 + 1 - Z.of_nat (length W0))))))%nat.
Proof.
  unfold np.pad. rewrite length_app, repeat_length. lia.
Qed.

Lemma init_constructs (W3 : nat -> nat -> nat -> nat -> R)
  (lmax0 : nat) (W0 : np.vector) :
  exists M,
    __init__ W3 lmax0 W0 =
      Ok (mkMaskDeconvolution lmax0
            (np.pad W0
               (Z.to_nat (Z.max 0 (2 * Z.of_nat lmax0 + 1 - Z.of_nat (length W0)))))
            (W3 (2 * lmax0 + 1)%nat) (Some M) None None None None None)
    /\ shape (lmax0 + 1) (lmax0 + 1) M
    /\ forall l1 l2, (l1 <= lmax0)%nat -> (l2 <= lmax0)%nat ->
         entry M l1 l2 =
         coupling_sum (W3 (2 * lmax0 + 1)%nat)
           (fun l => nth l (np.pad W0
               (Z.to_nat (Z.max 0 (2 * Z.of_nat lmax0 + 1 - Z.of_nat (length W0))))) 0)
           l1 l2 / (4 * PI).
Proof.
  unfold __init__. cbv zeta.
  set (s0 := mkMaskDeconvolution lmax0 _ _ None None None None None None).
  destruct (get_M_entries s0 false (window s0)) as (M & HM & Hs & HE).
  { intros l Hl. apply W_in_range. pose proof (pad_length lmax0 W0).
    simpl in *. lia. }
  rewrite HM. exists M. split; [reflexivity|]. split; [exact Hs|exact HE].
Qed.

(** ** Sums *)

Lemma sum_map_zero (A : Type) (f : A -> R) (l : list A) :
  (forall x, In x l -> f x = 0) -> np.sum (map f l) = 0.
Proof.
  induction l as [|x t IH]; intros H; [reflexivity|].
  cbn [map]. rewrite sum_cons, (H x (or_introl eq_refl)), IH; [ring|].
  intros y Hy. apply H. now right.
Qed.

Lemma sum_map_scale (A : Type) (c : R) (f : A -> R) (l : list A) :
  c * np.sum (map f l) = np.sum (map (fun x => c * f x) l).
Proof.
  induction l as [|x t IH]; cbn [map]; [unfold np.sum; simpl; ring|].
  rewrite !sum_cons, <- IH. ring.
Qed.

Lemma sum_map_ext (A : Type) (f g : A -> R) (l : list A) :
  (forall x, In x l -> f x = g x) -> np.sum (map f l) = np.sum (map g l).
Proof.
  induction l as [|x t IH]; intros H; [reflexivity|].
  cbn [map]. rewrite !sum_cons, (H x (or_introl eq_refl)), IH; [ring|].
  intros y Hy. apply H. now right.
Qed.

(** ** The 3j symbol *)

Lemma abs_diff_sym (a b : nat) : abs_diff a b = abs_diff b a.
Proof. unfold abs_diff. lia. Qed.

Lemma abs_diff_same (a : nat) : abs_diff a a = 0%nat.
Proof. unfold abs_diff. lia. Qed.

Lemma abs_diff_pos (a b : nat) : a <> b -> (0 < abs_diff a b)%nat.
Proof. unfold abs_diff. lia. Qed.

Lemma Delta_nonneg (l1 l2 l3 : nat) : 0 <= threej000.Delta l1 l2 l3.
Proof.
  unfold threej000.Delta. cbv zeta.
  apply Rmult_le_pos.
  - repeat apply Rmult_le_pos; apply pos_INR.
  - left. apply Rinv_0_lt_compat. apply INR_fact_lt_0.
Qed.

Lemma Wigner3j_sym (Nl l1 l2 l3 : nat) :
  threej000.Wigner3j Nl l1 l2 l3 = threej000.Wigner3j Nl l2 l1 l3.
Proof.
  unfold threej000.Wigner3j, threej000.Delta, threej000.triangle. cbv zeta.
  rewrite (abs_diff_sym l2 l1), (Nat.add_comm l2 l1).
  destruct ((abs_diff l1 l2 <=? l3)%nat && (l3 <=? l1 + l2)%nat
            && ((l1 + l2 + l3) mod 2 =? 0)%nat); [|reflexivity].
  rewrite (Rmult_comm (INR (fact (l1 + l2 + l3 - 2 * l2)))
             (INR (fact (l1 + l2 + l3 - 2 * l1)))).
  rewrite (Rmult_comm (INR (fact ((l1 + l2 + l3) / 2 - l2)))
             (INR (fact ((l1 + l2 + l3) / 2 - l1)))).
  reflexivity.
Qed.

Lemma Wigner3j_square (Nl l1 l2 l3 : nat) :
  threej000.triangle l1 l2 l3 = true ->
  ((l1 + l2 + l3) mod 2 = 0)%nat ->
  threej000.Wigner3j Nl l1 l2 l3 ^ 2 =
  threej000.Delta l1 l2 l3
  * (INR (fact ((l1 + l2 + l3) / 2))
     / (INR (fact ((l1 + l2 + l3) / 2 - l1))
        * INR (fact ((l1 + l2 + l3) / 2 - l2))
        * INR (fact ((l1 + l2 + l3) / 2 - l3)))) ^ 2.
Proof.
  intros Ht Hp. unfold threej000.Wigner3j. cbv zeta.
  rewrite Ht, Hp. cbn [andb Nat.eqb].
  rewrite !Rpow_mult_distr, pow2_sqrt by apply Delta_nonneg.
  rewrite <- pow_mult, Nat.mul_comm, pow_1_even. ring.
Qed.

Lemma Wigner3j_ll0_square (Nl l : nat) :
  threej000.Wigner3j Nl l l 0 ^ 2 = / INR (2 * l + 1).
Proof.
  assert (HJ : (l + l + 0 = l * 2)%nat) by lia.
  rewrite Wigner3j_square.
  - unfold threej000.Delta. cbv zeta. rewrite HJ.
    rewrite Nat.div_mul by lia.
    replace (l * 2 - 2 * l)%nat with 0%nat by lia.
    replace (l * 2 - 2 * 0)%nat with (2 * l)%nat by lia.
    replace (l * 2 + 1)%nat with (S (2 * l)) by lia.
    replace (2 * l + 1)%nat with (S (2 * l)) by lia.
    rewrite Nat.sub_diag, Nat.sub_0_r, fact_simpl, mult_INR.
    cbn [fact]. change (INR 1) with 1.
    pose proof (INR_fact_neq_0 l). pose proof (INR_fact_neq_0 (2 * l)).
    assert (INR (S (2 * l)) <> 0) by (apply not_0_INR; lia).
    field. repeat split; assumption.
  - unfold threej000.triangle. rewrite abs_diff_same. reflexivity.
  - rewrite HJ. apply Nat.Div0.mod_mul.
Qed.

Lemma Wigner3j_011_square (Nl : nat) :
  threej000.Wigner3j Nl 0 1 1 ^ 2 = / 3.
Proof.
  rewrite Wigner3j_square by reflexivity.
  unfold threej000.Delta. cbn. field.
Qed.

(** ** The coupling sum under the debug window and under exchange *)

Lemma coupling_term_debug_zero (w : nat -> nat -> nat -> R) (l1 l2 l3 : nat) :
  (0 < l3)%nat -> coupling_term w debug_window l1 l2 l3 = 0.
Proof.
  intros H. unfold coupling_term, debug_window.
  destruct (Nat.eqb_spec l3 0); [lia|ring].
Qed.

Lemma coupling_sum_debug (w : nat -> nat -> nat -> R) (l1 l2 : nat) :
  (forall l, w l l 0%nat ^ 2 = / INR (2 * l + 1)) ->
  coupling_sum w debug_window l1 l2 = if (l1 =? l2)%nat then 4 * PI else 0.
Proof.
  intros Hw. unfold coupling_sum.
  destruct (Nat.eqb_spec l1 l2) as [->|Hne].
  - rewrite abs_diff_same, Nat.sub_0_r.
    replace (l2 + l2 + 1)%nat with (S (l2 + l2)) by lia.
    cbn [seq filter].
    replace (Nat.even (l2 + l2 + 0)) with true.
    + cbn [map]. rewrite sum_cons, sum_map_zero.
      * unfold coupling_term, debug_window. cbn [Nat.eqb].
        rewrite Hw. change (2 * 0 + 1)%nat with 1%nat. change (INR 1) with 1.
        assert (INR (2 * l2 + 1) <> 0) by (apply not_0_INR; lia).
        field. assumption.
      * intros x Hx. apply filter_In in Hx. destruct Hx as [Hx _].
        apply in_seq in Hx. apply coupling_term_debug_zero. lia.
    + symmetry. apply Nat.even_spec. exists l2. lia.
  - apply sum_map_zero. intros x Hx. apply filter_In in Hx.
    destruct Hx as [Hx _]. apply in_seq in Hx.
    pose proof (abs_diff_pos l1 l2 Hne).
    apply coupling_term_debug_zero. lia.
Qed.

Lemma coupling_sum_exchange (w : nat -> nat -> nat -> R) (Wf : nat -> R)
  (l1 l2 : nat) :
  (forall l3, w l1 l2 l3 = w l2 l1 l3) ->
  INR (2 * l1 + 1) * coupling_sum w Wf l1 l2 =
  INR (2 * l2 + 1) * coupling_sum w Wf l2 l1.
Proof.
  intros Hw. unfold coupling_sum.
  rewrite (abs_diff_sym l2 l1), (Nat.add_comm l2 l1), !sum_map_scale.
  apply sum_map_ext. intros l3 _. unfold coupling_term. rewrite Hw. ring.
Qed.

(** ** Properties of the coupling matrix *)

(** C1. On every instance whose window array holds at least [2 lmax + 1]
    values, [get_M] returns an [(lmax + 1) x (lmax + 1)] matrix whose entry
    [(l1, l2)] is [1 / (4 pi)] times the sum, over [l3] from [|l1 - l2|] to
    [l1 + l2] with [l1 + l2 + l3] even, of
    [(2 l2 + 1) (2 l3 + 1) wigner(l1, l2, l3)^2 W(l3)]; the odd terms are
    not in the sum. *)
Theorem get_M_coupling_formula (s : MaskDeconvolution) :
  (2 * lmax s + 1 <= length (W_l s))%nat ->
  exists M,
    get_M false s = (s, Ok M)
    /\ shape (lmax s + 1) (lmax s + 1) M
    /\ forall l1 l2, (l1 <= lmax s)%nat -> (l2 <= lmax s)%nat ->
         entry M l1 l2 =
         1 / (4 * PI) * coupling_sum (w3j000 s) (window s) l1 l2.
Proof.
  intros Hpad.
  destruct (get_M_entries s false (window s)) as (M & HM & Hs & HE).
  - intros l Hl. apply W_in_range. lia.
  - exists M. split; [exact HM|]. split; [exact Hs|].
    intros l1 l2 H1 H2. rewrite (HE l1 l2 H1 H2). unfold Rdiv. ring.
Qed.

Lemma get_M_coupling_formula_witness :
  exists M,
    get_M false (mkMaskDeconvolution 1 [1; 2; 3] (threej000.Wigner3j 3)
                   None None None None None None) =
      (mkMaskDeconvolution 1 [1; 2; 3] (threej000.Wigner3j 3)
         None None None None None None, Ok M)
    /\ shape 2 2 M
    /\ forall l1 l2, (l1 <= 1)%nat -> (l2 <= 1)%nat ->
         entry M l1 l2 =
         1 / (4 * PI)
         * coupling_sum (threej000.Wigner3j 3)
             (window (mkMaskDeconvolution 1 [1; 2; 3] (threej000.Wigner3j 3)
                        None None None None None None)) l1 l2.
Proof.
  apply (get_M_coupling_formula
           (mkMaskDeconvolution 1 [1; 2; 3] (threej000.Wigner3j 3)
              None None None None None None)).
  simpl. lia.
Defined.

(** C3, as the code has it.  The matrix built at construction satisfies
    [(2 l1 + 1) M[l1, l2] = (2 l2 + 1) M[l2, l1]]: the summed term carries
    the factor [2 l2 + 1], so it is [M[l1, l2] / (2 l2 + 1)] that is
    symmetric under the exchange of [l1] and [l2], not [M] itself. *)
Theorem coupling_matrix_weighted_symmetry (lmax0 : nat) (W0 : np.vector) :
  exists s M,
    __init__ threej000.Wigner3j lmax0 W0 = Ok s
    /\ Mll s = Some M
    /\ forall l1 l2, (l1 <= lmax0)%nat -> (l2 <= lmax0)%nat ->
         INR (2 * l1 + 1) * entry M l1 l2 = INR (2 * l2 + 1) * entry M l2 l1.
Proof.
  destruct (init_constructs threej000.Wigner3j lmax0 W0) as (M & Hi & _ & HE).
  eexists. exists M. split; [exact Hi|]. split; [reflexivity|].
  intros l1 l2 H1 H2. rewrite (HE l1 l2 H1 H2), (HE l2 l1 H2 H1).
  unfold Rdiv. rewrite <- !Rmult_assoc. f_equal.
  apply coupling_sum_exchange. intros l3. apply Wigner3j_sym.
Qed.

(** C3 as stated fails: for [lmax = 1] and the window [[0; 1]] the entry
    [M[0, 1]] is three times [M[1, 0]], and neither is zero. *)
Lemma coupling_matrix_not_symmetric :
  exists s M,
    __init__ threej000.Wigner3j 1 [0; 1] = Ok s
    /\ Mll s = Some M
    /\ entry M 0 1 <> entry M 1 0.
Proof.
  destruct (init_constructs threej000.Wigner3j 1 [0; 1]) as (M & Hi & _ & HE).
  eexists. exists M. split; [exact Hi|]. split; [reflexivity|].
  rewrite (HE 0%nat 1%nat) by lia. rewrite (HE 1%nat 0%nat) by lia.
  unfold coupling_sum.
  change (abs_diff 0 1) with 1%nat. change (abs_diff 1 0) with 1%nat.
  cbn [Nat.add Nat.sub seq filter Nat.even map].
  rewrite !sum_cons. unfold coupling_term.
  rewrite (Wigner3j_sym _ 1 0 1), Wigner3j_011_square.
  cbn [Nat.mul Nat.add INR np.sum fold_right].
  change (nth 1 (np.pad [0; 1] _) 0) with 1.
  pose proof PI_RGT_0 as Hpi.
  intros H. apply (f_equal (fun x => x * (4 * PI))) in H.
  field_simplify in H; lra.
Qed.

(** C4. With the debug window ([4 pi] at [l = 0], [0] elsewhere) the
    coupling matrix of a constructed instance is the identity matrix, for
    every [lmax]. *)
Theorem debug_window_gives_identity (lmax0 : nat) (W0 : np.vector) :
  exists s M,
    __init__ threej000.Wigner3j lmax0 W0 = Ok s
    /\ get_M true s = (s, Ok M)
    /\ shape (lmax0 + 1) (lmax0 + 1) M
    /\ forall i j, (i <= lmax0)%nat -> (j <= lmax0)%nat ->
         entry M i j = if (i =? j)%nat then 1 else 0.
Proof.
  destruct (init_constructs threej000.Wigner3j lmax0 W0) as (M0 & Hi & _ & _).
  eexists. 
  match type of Hi with _ = Ok ?s0 =>
    destruct (get_M_entries s0 true debug_window) as (M & HM & Hs & HE)
  end.
  { intros l _. apply W_debug. }
  exists M. split; [exact Hi|]. split; [exact HM|]. split; [exact Hs|].
  intros i j H1 H2. rewrite (HE i j H1 H2).
  cbn [w3j000]. rewrite coupling_sum_debug by (intros l; apply Wigner3j_ll0_square).
  pose proof PI_RGT_0 as Hpi.
  destruct (i =? j)%nat; field; lra.
Qed.

(** ** Slices and block rows *)

Lemma setslice_zeros (L lo hi : nat) (v : R) :
  (lo <= hi <= L)%nat ->
  np.setslice (repeat 0 L) lo hi v =
  repeat 0 lo ++ repeat v (hi - lo) ++ repeat 0 (L - hi).
Proof.
  revert lo hi. induction L as [|L IH]; intros lo hi H.
  - assert (lo = 0%nat) by lia. assert (hi = 0%nat) by lia. subst. reflexivity.
  - destruct lo as [|lo], hi as [|hi]; try lia.
    + reflexivity.
    + cbn [repeat np.setslice]. rewrite (IH 0%nat hi) by lia.
      rewrite Nat.sub_0_r. reflexivity.
    + cbn [repeat np.setslice]. rewrite (IH lo hi) by lia. reflexivity.
Qed.

Lemma setslice_block (L w b : nat) (v : R) :
  (b * w + w <= L)%nat ->
  np.setslice (np.zeros L) (b * w) (b * w + w) v = block_row L w b v.
Proof.
  intros H. unfold np.zeros, block_row. rewrite setslice_zeros by lia.
  replace (b * w + w - b * w)%nat with w by lia.
  now replace (L - (b * w + w))%nat with (L - b * w - w)%nat by lia.
Qed.

Lemma update_app (A : Type) (f : A -> A) (l1 l2 : list A) (x : A) :
  np.update (length l1) f (l1 ++ x :: l2) = l1 ++ f x :: l2.
Proof.
  induction l1 as [|y t IH]; [reflexivity|]. cbn. now rewrite IH.
Qed.

Lemma partial_rows_step (L w Nb k : nat) (v : R) :
  (k < Nb)%nat -> (k * w + w <= L)%nat ->
  np.setrowslice (partial_rows L w Nb k v) k (k * w) (k * w + w) v =
  Ok (partial_rows L w Nb (S k) v).
Proof.
  intros Hk HL. unfold np.setrowslice, partial_rows.
  replace (Nb - k)%nat with (S (Nb - S k)) by lia. cbn [repeat].
  set (done := map (fun b => block_row L w b v) (seq 0 k)).
  assert (Hlen : length done = k)
    by (unfold done; now rewrite length_map, length_seq).
  rewrite nth_error_app2 by lia.
  rewrite Hlen at 1. rewrite Nat.sub_diag. cbn [nth_error].
  rewrite <- Hlen at 1. rewrite update_app, setslice_block by exact HL.
  rewrite seq_S, map_app, <- app_assoc. reflexivity.
Qed.

Lemma partial_rows_full (L w Nb : nat) (v : R) :
  partial_rows L w Nb Nb v = map (fun b => block_row L w b v) (seq 0 Nb).
Proof.
  unfold partial_rows. rewrite Nat.sub_diag. apply app_nil_r.
Qed.

Lemma partial_rows_overflow (L w Nb : nat) (v : R) (lo hi : nat) :
  np.setrowslice (partial_rows L w Nb Nb v) Nb lo hi v = Raise IndexError.
Proof.
  unfold np.setrowslice. rewrite partial_rows_full.
  replace (nth_error _ Nb) with (@None (list R)); [reflexivity|].
  symmetry. apply nth_error_None. now rewrite length_map, length_seq.
Qed.

Lemma partial_rows_zero (L w Nb : nat) (v : R) :
  partial_rows L w Nb 0 v = np.zeros2 Nb L.
Proof.
  unfold partial_rows, np.zeros2. now rewrite Nat.sub_0_r.
Qed.

(** ** The number of blocks *)

Lemma range3_exact (L w : nat) :
  (0 < w)%nat -> (L mod w = 0)%nat ->
  range3 0 L w = map (fun k => 0 + k * w)%nat (seq 0 (L / w)).
Proof.
  intros Hw Hm. unfold range3. f_equal. f_equal.
  pose proof (Nat.div_mod_eq L w) as HL. rewrite Hm, Nat.mul_comm in HL.
  rewrite Nat.sub_0_r.
  assert (E : ((L / w) * w + (w - 1) = L + w - 1)%nat)
    by (generalize dependent (L / w)%nat; intros; lia).
  rewrite <- E.
  rewrite Nat.div_add_l by lia. rewrite (Nat.div_small (w - 1) w) by lia.
  apply Nat.add_0_r.
Qed.

Lemma range3_overshoot (L w : nat) :
  (0 < w)%nat -> (L mod w <> 0)%nat ->
  range3 0 L w =
  map (fun k => 0 + k * w)%nat (seq 0 (L / w)) ++ [(0 + (L / w) * w)%nat].
Proof.
  intros Hw Hm. unfold range3.
  pose proof (Nat.div_mod_eq L w) as HL. rewrite Nat.mul_comm in HL.
  pose proof (Nat.mod_upper_bound L w ltac:(lia)) as Hr.
  rewrite Nat.sub_0_r.
  assert (E : ((L / w + 1) * w + (L mod w - 1) = L + w - 1)%nat)
    by (rewrite Nat.mul_add_distr_r; generalize dependent (L / w)%nat;
        generalize dependent (L mod w)%nat; intros; lia).
  rewrite <- E.
  rewrite Nat.div_add_l by lia. rewrite (Nat.div_small (L mod w - 1) w) by lia.
  rewrite Nat.add_0_r, Nat.add_1_r, seq_S, map_app. reflexivity.
Qed.

(** ** Building the binning operators *)

Lemma getattr_ok (A : Type) (name : string)
  (field : MaskDeconvolution -> option A) (s : MaskDeconvolution) (a : A) :
  field s = Some a -> getattr name field s = (s, Ok a).
Proof. intros H. unfold getattr. now rewrite H. Qed.

Lemma getattr_missing (A : Type) (name : string)
  (field : MaskDeconvolution -> option A) (s : MaskDeconvolution) :
  field s = None -> getattr name field s = (s, Raise (AttributeError name)).
Proof. intros H. unfold getattr. now rewrite H. Qed.

Lemma floordiv_pos (a w : nat) : (0 < w)%nat -> floordiv a w = Ok (a / w)%nat.
Proof.
  intros H. unfold floordiv. destruct (Nat.eqb_spec w 0); [lia|reflexivity].
Qed.

Lemma for__app (A : Type) (xs ys : list nat) (body : nat -> A -> method A)
  (a : A) (s : MaskDeconvolution) :
  for_ (xs ++ ys) body a s =
  bind (for_ xs body a) (fun a' => for_ ys body a') s.
Proof.
  revert a s. induction xs as [|x t IH]; intros a s; [reflexivity|].
  cbn [app for_]. rewrite !bind_run.
  destruct (body x a s) as [s' [a'|e]]; [|reflexivity].
  rewrite IH. now rewrite bind_run.
Qed.

Ltac run_step :=
  rewrite bind_run;
  first [ rewrite get_run | rewrite modify_run | rewrite lift_run
        | rewrite ret_run | erewrite getattr_ok by reflexivity ];
  cbv beta iota.

Section Binning.

Variable s : MaskDeconvolution.
Variable w : nat.
Hypothesis w_pos : (0 < w)%nat.

Lemma init_binning_block (Nb k : nat) :
  (k < Nb)%nat -> (k * w + w <= lmax s + 1)%nat ->
  (fun i (_ : unit) =>
     q <- lift (floordiv i w) ;;
     b <- getattr "bins" bins ;;
     b' <- lift (np.setrowslice b q i (i + w) (1 / INR w)) ;;
     modify (set_bins b') ;;
     u <- getattr "bins_no_weight" bins_no_weight ;;
     u' <- lift (np.setrowslice u q i (i + w) 1) ;;
     modify (set_bins_no_weight u'))%method (0 + k * w)%nat tt
    (set_bins_no_weight (partial_rows (lmax s + 1) w Nb k 1)
       (set_bins (partial_rows (lmax s + 1) w Nb k (1 / INR w))
          (set_lperBin w s))) =
  (set_bins_no_weight (partial_rows (lmax s + 1) w Nb (S k) 1)
     (set_bins (partial_rows (lmax s + 1) w Nb (S k) (1 / INR w))
        (set_lperBin w s)), Ok tt).
Proof.
  intros Hk HL. cbv beta. cbn [Nat.add].
  rewrite bind_run, lift_run, floordiv_pos, Nat.div_mul by lia. cbv beta iota.
  run_step. cbn [bins set_bins_no_weight set_bins].
  rewrite bind_run, lift_run, partial_rows_step by assumption. cbv beta iota.
  run_step. run_step. cbn [bins_no_weight set_bins_no_weight set_bins].
  rewrite bind_run, lift_run, partial_rows_step by assumption. cbv beta iota.
  rewrite modify_run. reflexivity.
Qed.

Lemma init_binning_loop (Nb : nat) :
  (Nb * w <= lmax s + 1)%nat ->
  forall j k, (k + j <= Nb)%nat ->
    for_ (map (fun q => 0 + q * w)%nat (seq k j))
      (fun i (_ : unit) =>
         q <- lift (floordiv i w) ;;
         b <- getattr "bins" bins ;;
         b' <- lift (np.setrowslice b q i (i + w) (1 / INR w)) ;;
         modify (set_bins b') ;;
         u <- getattr "bins_no_weight" bins_no_weight ;;
         u' <- lift (np.setrowslice u q i (i + w) 1) ;;
         modify (set_bins_no_weight u'))%method tt
      (set_bins_no_weight (partial_rows (lmax s + 1) w Nb k 1)
         (set_bins (partial_rows (lmax s + 1) w Nb k (1 / INR w))
            (set_lperBin w s))) =
    (set_bins_no_weight (partial_rows (lmax s + 1) w Nb (k + j) 1)
       (set_bins (partial_rows (lmax s + 1) w Nb (k + j) (1 / INR w))
          (set_lperBin w s)), Ok tt).
Proof.
  intros HNb. induction j as [|j IH]; intros k Hk.
  - rewrite Nat.add_0_r. reflexivity.
  - cbn [seq map for_]. rewrite bind_run.
    rewrite (init_binning_block Nb k) by nia. cbv beta iota.
    rewrite (IH (S k)) by lia.
    now replace (S k + j)%nat with (k + S j)%nat by lia.
Qed.

End Binning.

(** ** Products of arrays of matching shapes *)

Lemma rmap_ok (A B : Type) (f : A -> result B) (g : A -> B) (l : list A) :
  (forall x, In x l -> f x = Ok (g x)) -> rmap f l = Ok (map g l).
Proof.
  induction l as [|x t IH]; intros H; [reflexivity|].
  cbn [rmap map]. rewrite (H x (or_introl eq_refl)). cbn [rbind].
  rewrite IH; [reflexivity|]. intros y Hy. apply H. now right.
Qed.

Lemma dot1_ok (u v : np.vector) :
  length u = length v ->
  np.dot1 u v = Ok (np.sum (map (fun p => fst p * snd p) (combine u v))).
Proof.
  intros H. unfold np.dot1. rewrite H, Nat.eqb_refl. reflexivity.
Qed.

Lemma dot_ok (r c : nat) (A : np.matrix) (v : np.vector) :
  shape r c A -> length v = c ->
  np.dot A v =
  Ok (map (fun row => np.sum (map (fun p => fst p * snd p) (combine row v))) A).
Proof.
  intros [_ Hc] Hv. unfold np.dot. apply rmap_ok.
  intros row Hrow. apply dot1_ok. rewrite Forall_forall in Hc.
  rewrite (Hc row Hrow). now symmetry.
Qed.

(** ** Shape of the operators *)

Lemma block_row_length (L w b : nat) (v : R) :
  (b * w + w <= L)%nat -> length (block_row L w b v) = L.
Proof.
  intros H. unfold block_row. rewrite !length_app, !repeat_length. lia.
Qed.

Lemma block_operator_shape (L w : nat) (v : R) :
  (0 < w)%nat -> shape (L / w) L (block_operator L w v).
Proof.
  intros Hw. unfold block_operator. split.
  - now rewrite length_update, length_map, length_seq.
  - apply Forall_update.
    + intros row H. now rewrite length_update.
    + apply Forall_forall. intros row Hrow. apply in_map_iff in Hrow.
      destruct Hrow as (b & <- & Hb). apply in_seq in Hb.
      apply block_row_length.
      pose proof (Nat.Div0.mul_div_le L w) as Hle.
      rewrite Nat.mul_comm in Hle. nia.
Qed.

Lemma monopole_excluded (L w : nat) (v : R) :
  (0 < w)%nat -> (w <= L)%nat ->
  np.setitem2 (partial_rows L w (L / w) (0 + L / w) v) 0 0 0 =
  Ok (block_operator L w v).
Proof.
  intros Hw HL. cbn [Nat.add]. rewrite partial_rows_full.
  unfold np.setitem2, block_operator.
  assert (Hq : (0 < L / w)%nat) by (apply Nat.div_str_pos; lia).
  destruct (L / w)%nat as [|q]; [lia|].
  cbn [seq map nth_error]. unfold block_row at 1.
  destruct w as [|w']; [lia|]. reflexivity.
Qed.

Section BinningResult.

Variable s : MaskDeconvolution.
Variable w : nat.
Hypothesis w_pos : (0 < w)%nat.

(** When the bin width divides [lmax + 1], [init_binning] returns and leaves
    the two block operators and their bin centres in the instance. *)
Lemma init_binning_ok :
  ((lmax s + 1) mod w = 0)%nat ->
  init_binning (set_lperBin w s) =
  (set_binned_ells
     (map (fun row =>
             np.sum (map (fun p => fst p * snd p)
                       (combine row (np.arange (lmax s + 1)))))
        (block_operator (lmax s + 1) w (1 / INR w)))
     (set_bins_no_weight (block_operator (lmax s + 1) w 1)
        (set_bins (block_operator (lmax s + 1) w (1 / INR w))
           (set_lperBin w s))), Ok tt).
Proof.
  intros Hm.
  assert (HL : (w <= lmax s + 1)%nat).
  { destruct (Nat.le_gt_cases w (lmax s + 1)) as [H|H]; [exact H|].
    rewrite Nat.mod_small in Hm by exact H. lia. }
  assert (HNb : ((lmax s + 1) / w * w <= lmax s + 1)%nat).
  { rewrite Nat.mul_comm. apply Nat.Div0.mul_div_le. }
  pose proof (init_binning_loop s w w_pos ((lmax s + 1) / w) HNb
                ((lmax s + 1) / w) 0 ltac:(lia)) as Hloop.
  rewrite !partial_rows_zero in Hloop.
  unfold init_binning.
  run_step. run_step.
  rewrite bind_run, lift_run, floordiv_pos by exact w_pos. cbv beta iota.
  run_step. run_step. run_step.
  rewrite range3_exact by assumption.
  erewrite bind_ok by exact Hloop.
  run_step.
  rewrite bind_run, lift_run.
  cbn [bins set_bins set_bins_no_weight].
  rewrite monopole_excluded by assumption. cbv beta iota.
  run_step. run_step.
  rewrite bind_run, lift_run.
  cbn [bins_no_weight set_bins set_bins_no_weight].
  rewrite monopole_excluded by assumption. cbv beta iota.
  run_step. run_step.
  rewrite bind_run, lift_run.
  cbn [bins set_bins set_bins_no_weight lmax set_lperBin].
  rewrite (dot_ok ((lmax s + 1) / w) (lmax s + 1))
    by (try apply block_operator_shape; try assumption;
        unfold np.arange; now rewrite length_map, length_seq).
  cbv beta iota. rewrite modify_run. reflexivity.
Qed.

(** When it does not, the loop reaches a block that starts inside the
    range but whose row index is the number of rows. *)
Lemma init_binning_overshoot :
  ((lmax s + 1) mod w <> 0)%nat ->
  init_binning (set_lperBin w s) =
  (set_bins_no_weight
     (partial_rows (lmax s + 1) w ((lmax s + 1) / w) ((lmax s + 1) / w) 1)
     (set_bins
        (partial_rows (lmax s + 1) w ((lmax s + 1) / w) ((lmax s + 1) / w)
           (1 / INR w))
        (set_lperBin w s)), Raise IndexError).
Proof.
  intros Hm.
  assert (HNb : ((lmax s + 1) / w * w <= lmax s + 1)%nat).
  { rewrite Nat.mul_comm. apply Nat.Div0.mul_div_le. }
  pose proof (init_binning_loop s w w_pos ((lmax s + 1) / w) HNb
                ((lmax s + 1) / w) 0 ltac:(lia)) as Hloop.
  rewrite !partial_rows_zero in Hloop. cbn [Nat.add] in Hloop.
  unfold init_binning.
  run_step. run_step.
  rewrite bind_run, lift_run, floordiv_pos by exact w_pos. cbv beta iota.
  run_step. run_step. run_step.
  rewrite range3_overshoot by assumption.
  rewrite bind_run, for__app.
  erewrite bind_ok by exact Hloop.
  cbn [for_]. rewrite bind_run.
  rewrite bind_run, lift_run, floordiv_pos by exact w_pos. cbv beta iota.
  cbn [Nat.add]. rewrite Nat.div_mul by lia.
  run_step.
  rewrite bind_run, lift_run.
  cbn [bins set_bins set_bins_no_weight lmax set_lperBin].
  rewrite partial_rows_overflow. reflexivity.
Qed.

End BinningResult.

(** ** Rows of the block operators *)

Lemma sum_repeat (x : R) (n : nat) : np.sum (repeat x n) = INR n * x.
Proof.
  induction n as [|n IH]; [simpl; ring|].
  cbn [repeat]. rewrite sum_cons, IH, S_INR. ring.
Qed.

Lemma sum_block (a n r : nat) (v : R) :
  np.sum (repeat 0 a ++ repeat v n ++ repeat 0 r) = INR n * v.
Proof.
  rewrite !sum_app, !sum_repeat. ring.
Qed.

Lemma nth_block (a n r l : nat) (v : R) :
  nth l (repeat 0 a ++ repeat v n ++ repeat 0 r) 0 =
  if ((a <=? l) && (l <? a + n))%nat then v else 0.
Proof.
  destruct (Nat.leb_spec a l) as [Ha|Ha]; cbn [andb].
  - rewrite app_nth2 by (rewrite repeat_length; lia). rewrite repeat_length.
    destruct (Nat.ltb_spec l (a + n)) as [Hn|Hn].
    + rewrite app_nth1 by (rewrite repeat_length; lia).
      apply nth_repeat_lt. lia.
    + rewrite app_nth2 by (rewrite repeat_length; lia). rewrite repeat_length.
      destruct (Nat.lt_ge_cases (l - a - n) r) as [Hr|Hr].
      * now apply nth_repeat_lt.
      * apply nth_overflow. now rewrite repeat_length.
  - rewrite app_nth1 by (rewrite repeat_length; lia).
    now apply nth_repeat_lt.
Qed.

Lemma block_operator_row (L w b : nat) (v : R) :
  (1 <= b < L / w)%nat ->
  nth b (block_operator L w v) [] = block_row L w b v.
Proof.
  intros Hb. unfold block_operator.
  rewrite nth_update_other by lia.
  rewrite (nth_indep _ [] (block_row L w 0 v))
    by (rewrite length_map, length_seq; lia).
  pose proof (map_nth (fun b => block_row L w b v) (seq 0 (L / w)) 0%nat b)
    as Hnth.
  cbv beta in Hnth. etransitivity; [exact Hnth|]. now rewrite seq_nth by lia.
Qed.

Lemma block_operator_row0 (L w : nat) (v : R) :
  (0 < w <= L)%nat ->
  nth 0 (block_operator L w v) [] =
  repeat 0 1 ++ repeat v (w - 1) ++ repeat 0 (L - w).
Proof.
  intros Hw. unfold block_operator.
  assert (Hq : (0 < L / w)%nat) by (apply Nat.div_str_pos; lia).
  destruct (L / w)%nat as [|q]; [lia|].
  cbn [seq map np.update nth]. unfold block_row.
  destruct w as [|w']; [lia|].
  cbn [Nat.mul repeat app np.update Nat.sub]. rewrite !Nat.sub_0_r.
  reflexivity.
Qed.

Lemma block_operator_monopole (L w : nat) (v : R) :
  (0 < w <= L)%nat -> entry (block_operator L w v) 0 0 = 0.
Proof.
  intros Hw. unfold entry. rewrite block_operator_row0 by exact Hw. reflexivity.
Qed.

(** ** Weighted sums over a block *)

Lemma weighted_prefix (n m lo : nat) (v : R) (Y : np.vector) (f : nat -> R) :
  np.sum (map (fun p => fst p * snd p)
            (combine (repeat v n ++ Y) (map f (seq lo (n + m))))) =
  v * np.sum (map f (seq lo n))
  + np.sum (map (fun p => fst p * snd p)
              (combine Y (map f (seq (lo + n) m)))).
Proof.
  revert lo. induction n as [|n IH]; intros lo.
  - cbn [repeat app Nat.add seq map]. rewrite Nat.add_0_r.
    unfold np.sum at 2. simpl. ring.
  - cbn [repeat app Nat.add seq map combine]. rewrite !sum_cons, IH.
    cbn [fst snd]. replace (S lo + n)%nat with (lo + S n)%nat by lia. ring.
Qed.

Lemma weighted_zeros (r : nat) (Z : np.vector) :
  np.sum (map (fun p => fst p * snd p) (combine (repeat 0 r) Z)) = 0.
Proof.
  revert Z. induction r as [|r IH]; intros Z; [reflexivity|].
  destruct Z as [|z Z]; [reflexivity|].
  cbn [repeat combine map]. rewrite sum_cons, IH. cbn [fst snd]. ring.
Qed.

Lemma weighted_block (a n r : nat) (v : R) :
  np.sum (map (fun p => fst p * snd p)
            (combine (repeat 0 a ++ repeat v n ++ repeat 0 r)
               (np.arange (a + n + r)))) =
  v * np.sum (map INR (seq a n)).
Proof.
  unfold np.arange. rewrite <- Nat.add_assoc, weighted_prefix.
  cbn [Nat.add]. rewrite weighted_prefix, weighted_zeros. ring.
Qed.

Lemma sum_INR_seq (lo n : nat) :
  2 * np.sum (map INR (seq lo n)) = INR n * (2 * INR lo + INR n - 1).
Proof.
  revert lo. induction n as [|n IH]; intros lo.
  - simpl. ring.
  - cbn [seq map]. rewrite sum_cons, Rmult_plus_distr_l, IH, !S_INR. ring.
Qed.

(** ** The multipoles a bin includes *)

Lemma filter_none (A : Type) (p : A -> bool) (l : list A) :
  (forall x, In x l -> p x = false) -> filter p l = [].
Proof.
  induction l as [|x t IH]; intros H; [reflexivity|].
  cbn [filter]. rewrite (H x (or_introl eq_refl)). apply IH.
  intros y Hy. apply H. now right.
Qed.

Lemma filter_all (A : Type) (p : A -> bool) (l : list A) :
  (forall x, In x l -> p x = true) -> filter p l = l.
Proof.
  induction l as [|x t IH]; intros H; [reflexivity|].
  cbn [filter]. rewrite (H x (or_introl eq_refl)). f_equal. apply IH.
  intros y Hy. apply H. now right.
Qed.

Lemma nonzero_block (a n r : nat) (v : R) :
  v <> 0 ->
  filter (fun l =>
            if Req_dec_T (nth l (repeat 0 a ++ repeat v n ++ repeat 0 r) 0) 0
            then false else true)
    (seq 0 (a + n + r)) = seq a n.
Proof.
  intros Hv. rewrite !seq_app, !filter_app. cbn [Nat.add].
  rewrite filter_none, filter_all, filter_none.
  - now rewrite app_nil_r.
  - intros l Hl. apply in_seq in Hl. rewrite nth_block.
    destruct (Nat.ltb_spec l (a + n)); [lia|]. rewrite andb_false_r.
    destruct (Req_dec_T 0 0); [reflexivity|contradiction].
  - intros l Hl. apply in_seq in Hl. rewrite nth_block.
    destruct (Nat.leb_spec a l); [|lia].
    destruct (Nat.ltb_spec l (a + n)); [|lia]. cbn [andb].
    destruct (Req_dec_T v 0); [contradiction|reflexivity].
  - intros l Hl. apply in_seq in Hl. rewrite nth_block.
    destruct (Nat.leb_spec a l); [lia|]. cbn [andb].
    destruct (Req_dec_T 0 0); [reflexivity|contradiction].
Qed.

Lemma included_later (L w b : nat) (v : R) :
  (0 < w)%nat -> (1 <= b < L / w)%nat -> v <> 0 ->
  included (block_operator L w v) b = seq (b * w) w.
Proof.
  intros Hw Hb Hv. unfold included, entry.
  rewrite block_operator_row by exact Hb. unfold block_row.
  assert (HL : (b * w + w <= L)%nat).
  { pose proof (Nat.Div0.mul_div_le L w) as Hle.
    rewrite Nat.mul_comm in Hle. nia. }
  rewrite !length_app, !repeat_length.
  replace (b * w + (w + (L - b * w - w)))%nat
    with (b * w + w + (L - b * w - w))%nat by lia.
  now apply nonzero_block.
Qed.

Lemma included_first (L w : nat) (v : R) :
  (0 < w <= L)%nat -> v <> 0 ->
  included (block_operator L w v) 0 = seq 1 (w - 1).
Proof.
  intros Hw Hv. unfold included, entry.
  rewrite block_operator_row0 by exact Hw.
  rewrite !length_app, !repeat_length.
  replace (1 + (w - 1 + (L - w)))%nat with (1 + (w - 1) + (L - w))%nat by lia.
  now apply nonzero_block.
Qed.

(** ** Properties of the binning operators *)

(** C5, as the code has it.  When the bin width divides [lmax + 1], the
    operators are built, every row of [bins] after the first sums to 1, the
    first row sums to [(lperBin - 1) / lperBin] because the weight taken
    from the monopole is not given to the other multipoles, and the weight
    of [l = 0] in the first bin is zero in both operators. *)
Theorem binning_row_sums (s : MaskDeconvolution) (w : nat) :
  (0 < w)%nat -> ((lmax s + 1) mod w = 0)%nat ->
  exists s' B U,
    init_binning (set_lperBin w s) = (s', Ok tt)
    /\ bins s' = Some B /\ bins_no_weight s' = Some U
    /\ (forall b, (1 <= b < (lmax s + 1) / w)%nat -> row_sum B b = 1)
    /\ row_sum B 0 = (INR w - 1) / INR w
    /\ entry B 0 0 = 0 /\ entry U 0 0 = 0.
Proof.
  intros Hw Hm.
  assert (HL : (w <= lmax s + 1)%nat).
  { destruct (Nat.le_gt_cases w (lmax s + 1)) as [H|H]; [exact H|].
    rewrite Nat.mod_small in Hm by exact H. lia. }
  assert (Hw0 : INR w <> 0) by (apply not_0_INR; lia).
  do 3 eexists. split; [apply (init_binning_ok s w Hw Hm)|].
  split; [reflexivity|]. split; [reflexivity|]. repeat split.
  - intros b Hb. unfold row_sum. rewrite block_operator_row by exact Hb.
    unfold block_row. rewrite sum_block. now field.
  - unfold row_sum. rewrite block_operator_row0 by lia.
    rewrite sum_block, minus_INR by lia. change (INR 1) with 1. now field.
  - apply block_operator_monopole. lia.
  - apply block_operator_monopole. lia.
Qed.

Lemma binning_row_sums_witness :
  exists s' B U,
    init_binning
      (set_lperBin 2 (mkMaskDeconvolution 3 [1] (threej000.Wigner3j 7)
                        None None None None None None)) = (s', Ok tt)
    /\ bins s' = Some B /\ bins_no_weight s' = Some U
    /\ (forall b, (1 <= b < (3 + 1) / 2)%nat -> row_sum B b = 1)
    /\ row_sum B 0 = (INR 2 - 1) / INR 2
    /\ entry B 0 0 = 0 /\ entry U 0 0 = 0.
Proof.
  apply (binning_row_sums
           (mkMaskDeconvolution 3 [1] (threej000.Wigner3j 7)
              None None None None None None) 2).
  - lia.
  - reflexivity.
Defined.

(** C5 as stated fails on the first row: for [lmax = 1] and [lperBin = 2]
    the only row of [bins] is [[0; 1/2]], which sums to [1/2]. *)
Lemma first_row_sum_below_one :
  exists s s' B,
    __init__ threej000.Wigner3j 1 [1] = Ok s
    /\ init_binning (set_lperBin 2 s) = (s', Ok tt)
    /\ bins s' = Some B
    /\ row_sum B 0 <> 1.
Proof.
  destruct (init_constructs threej000.Wigner3j 1 [1]) as (M & Hi & _ & _).
  do 3 eexists. split; [exact Hi|].
  split; [apply init_binning_ok; [lia|reflexivity]|].
  split; [reflexivity|].
  cbn [lmax]. unfold row_sum. rewrite block_operator_row0 by (simpl; lia).
  rewrite sum_block. simpl. lra.
Qed.

(** C9. For a bin width of at least 2 that divides [lmax + 1], the centre
    reported for the first bin is [(lperBin - 1) / 2], strictly below the
    mean [lperBin / 2] of the multipoles that bin includes; for every later
    bin the centre is the mean of the multipoles of its block. *)
Theorem bin_centres (s : MaskDeconvolution) (w : nat) :
  (2 <= w)%nat -> ((lmax s + 1) mod w = 0)%nat ->
  exists s' B ells,
    init_binning (set_lperBin w s) = (s', Ok tt)
    /\ bins s' = Some B /\ binned_ells s' = Some ells
    /\ nth 0 ells 0 = (INR w - 1) / 2
    /\ included B 0 = seq 1 (w - 1)
    /\ nth 0 ells 0 < mean (included B 0)
    /\ forall b, (1 <= b < (lmax s + 1) / w)%nat ->
         included B b = seq (b * w) w
         /\ nth b ells 0 = mean (included B b).
Proof.
  intros Hw Hm.
  assert (HL : (w <= lmax s + 1)%nat).
  { destruct (Nat.le_gt_cases w (lmax s + 1)) as [H|H]; [exact H|].
    rewrite Nat.mod_small in Hm by exact H. lia. }
  assert (Hw0 : INR w <> 0) by (apply not_0_INR; lia).
  assert (Hv : 1 / INR w <> 0).
  { unfold Rdiv. rewrite Rmult_1_l. now apply Rinv_neq_0_compat. }
  assert (Hq : (0 < (lmax s + 1) / w)%nat) by (apply Nat.div_str_pos; lia).
  assert (Hw1 : INR (w - 1) = INR w - 1)
    by (rewrite minus_INR by lia; reflexivity).
  assert (Hw2 : 2 <= INR w) by (change 2 with (INR 2); apply le_INR; lia).
  pose proof (block_operator_shape (lmax s + 1) w (1 / INR w) ltac:(lia))
    as [Hrows _].
  assert (Hcentre0 :
    nth 0 (map (fun row =>
                  np.sum (map (fun p => fst p * snd p)
                            (combine row (np.arange (lmax s + 1)))))
             (block_operator (lmax s + 1) w (1 / INR w))) 0
    = (INR w - 1) / 2).
  { rewrite (nth_indep _ 0
               (np.sum (map (fun p => fst p * snd p)
                          (combine [] (np.arange (lmax s + 1))))))
      by (rewrite length_map; lia).
    rewrite (map_nth (fun row =>
                        np.sum (map (fun p => fst p * snd p)
                                  (combine row (np.arange (lmax s + 1)))))).
    rewrite block_operator_row0 by lia.
    replace (lmax s + 1)%nat with (1 + (w - 1) + (lmax s + 1 - w))%nat at 2
      by lia.
    rewrite weighted_block.
    pose proof (sum_INR_seq 1 (w - 1)) as Hsum.
    rewrite Hw1 in Hsum. change (INR 1) with 1 in Hsum.
    apply Rmult_eq_reg_l with (r := 2); [|lra].
    transitivity (1 / INR w * (2 * np.sum (map INR (seq 1 (w - 1)))));
      [ring|].
    rewrite Hsum. now field. }
  assert (Hmean0 : mean (seq 1 (w - 1)) = INR w / 2).
  { unfold mean. rewrite length_seq.
    pose proof (sum_INR_seq 1 (w - 1)) as Hsum.
    rewrite Hw1 in Hsum. change (INR 1) with 1 in Hsum.
    apply Rmult_eq_reg_l with (r := 2); [|lra].
    rewrite Hw1. unfold Rdiv. rewrite <- Rmult_assoc, Hsum. field. lra. }
  do 3 eexists. split; [apply (init_binning_ok s w ltac:(lia) Hm)|].
  split; [reflexivity|]. split; [reflexivity|].
  split; [exact Hcentre0|].
  split; [apply included_first; [lia|exact Hv]|].
  split.
  - rewrite Hcentre0, included_first by (try lia; exact Hv).
    rewrite Hmean0. lra.
  - intros b Hb.
    assert (HbL : (b * w + w <= lmax s + 1)%nat).
    { pose proof (Nat.Div0.mul_div_le (lmax s + 1) w) as Hle.
      rewrite Nat.mul_comm in Hle. nia. }
    split; [apply included_later; [lia|exact Hb|exact Hv]|].
    rewrite included_later by (try lia; try exact Hb; exact Hv).
    rewrite (nth_indep _ 0
               (np.sum (map (fun p => fst p * snd p)
                          (combine [] (np.arange (lmax s + 1))))))
      by (rewrite length_map; lia).
    rewrite (map_nth (fun row =>
                        np.sum (map (fun p => fst p * snd p)
                                  (combine row (np.arange (lmax s + 1)))))).
    rewrite block_operator_row by exact Hb. unfold block_row.
    replace (lmax s + 1)%nat
      with (b * w + w + (lmax s + 1 - b * w - w))%nat at 2 by lia.
    rewrite weighted_block. unfold mean. rewrite length_seq.
    unfold Rdiv. ring.
Qed.

Lemma bin_centres_witness :
  exists s' B ells,
    init_binning
      (set_lperBin 2 (mkMaskDeconvolution 3 [1] (threej000.Wigner3j 7)
                        None None None None None None)) = (s', Ok tt)
    /\ bins s' = Some B /\ binned_ells s' = Some ells
    /\ nth 0 ells 0 = (INR 2 - 1) / 2
    /\ included B 0 = seq 1 (2 - 1)
    /\ nth 0 ells 0 < mean (included B 0)
    /\ forall b, (1 <= b < (3 + 1) / 2)%nat ->
         included B b = seq (b * 2) 2
         /\ nth b ells 0 = mean (included B b).
Proof.
  apply (bin_centres
           (mkMaskDeconvolution 3 [1] (threej000.Wigner3j 7)
              None None None None None None) 2).
  - lia.
  - reflexivity.
Defined.

(** ** The attributes no call changes *)

Create HintDb preserves.

Lemma frame_refl (s : MaskDeconvolution) : frame s s.
Proof. repeat split. Qed.

Lemma frame_trans (s1 s2 s3 : MaskDeconvolution) :
  frame s1 s2 -> frame s2 s3 -> frame s1 s3.
Proof.
  intros (A1 & A2 & A3 & A4) (B1 & B2 & B3 & B4).
  repeat split; congruence.
Qed.

Lemma preserves_bind (A B : Type) (m : method A) (k : A -> method B) :
  preserves m -> (forall a, preserves (k a)) -> preserves (bind m k).
Proof.
  intros Hm Hk s. rewrite bind_run. specialize (Hm s).
  destruct (m s) as [s' [a|e]]; cbn [fst] in *.
  - eapply frame_trans; [exact Hm|apply Hk].
  - exact Hm.
Qed.

Lemma preserves_ret (A : Type) (a : A) : preserves (ret a).
Proof. intros s. apply frame_refl. Qed.

Lemma preserves_raise (A : Type) (e : exn) : preserves (@raise A e).
Proof. intros s. apply frame_refl. Qed.

Lemma preserves_lift (A : Type) (r : result A) : preserves (lift r).
Proof. intros s. apply frame_refl. Qed.

Lemma preserves_get : preserves get.
Proof. intros s. apply frame_refl. Qed.

Lemma preserves_getattr (A : Type) (name : string)
  (field : MaskDeconvolution -> option A) : preserves (getattr name field).
Proof. intros s. unfold getattr. destruct (field s); apply frame_refl. Qed.

Lemma preserves_assert (b : bool) (msg : string) : preserves (assert b msg).
Proof. intros s. destruct b; apply frame_refl. Qed.

Lemma preserves_set_lperBin (v : nat) : preserves (modify (set_lperBin v)).
Proof. intros s. repeat split. Qed.

Lemma preserves_set_bins (v : np.matrix) : preserves (modify (set_bins v)).
Proof. intros s. repeat split. Qed.

Lemma preserves_set_bins_no_weight (v : np.matrix) :
  preserves (modify (set_bins_no_weight v)).
Proof. intros s. repeat split. Qed.

Lemma preserves_set_binned_ells (v : np.vector) :
  preserves (modify (set_binned_ells v)).
Proof. intros s. repeat split. Qed.

Lemma preserves_set_Mbb_inv (v : option np.matrix) :
  preserves (modify (set_Mbb_inv v)).
Proof. intros s. repeat split. Qed.

Lemma preserves_for (A : Type) (xs : list nat) (body : nat -> A -> method A)
  (a : A) :
  (forall x a, preserves (body x a)) -> preserves (for_ xs body a).
Proof.
  intros Hb. revert a. induction xs as [|x t IH]; intros a; cbn [for_].
  - apply preserves_ret.
  - apply preserves_bind; [apply Hb|exact IH].
Qed.

#[local] Hint Resolve preserves_bind preserves_ret preserves_raise
  preserves_lift preserves_get preserves_getattr preserves_assert
  preserves_set_lperBin preserves_set_bins preserves_set_bins_no_weight
  preserves_set_binned_ells preserves_set_Mbb_inv preserves_for : preserves.

Lemma preserves_init_binning : preserves init_binning.
Proof. unfold init_binning. auto 30 with preserves. Qed.

Lemma preserves_bin_matrix (M : np.matrix) : preserves (bin_matrix M).
Proof. unfold bin_matrix. auto 10 with preserves. Qed.

Lemma preserves_bin_Cls (Cl : np.vector) : preserves (bin_Cls Cl).
Proof. unfold bin_Cls. auto with preserves. Qed.

Lemma preserves_decouple_Cls (Minv : np.matrix) (Cb : np.vector) :
  preserves (decouple_Cls Minv Cb).
Proof. unfold decouple_Cls. auto with preserves. Qed.

#[local] Hint Resolve preserves_init_binning preserves_bin_matrix
  preserves_bin_Cls preserves_decouple_Cls : preserves.

Lemma preserves_call (linalg_inv : np.matrix -> result np.matrix)
  (C_l : np.vector) (w : nat) : preserves (__call__ linalg_inv C_l w).
Proof. unfold __call__. auto 30 with preserves. Qed.

Lemma preserves_convolve (Clt : np.vector) :
  preserves (convolve_theory_Cls Clt).
Proof.
  unfold convolve_theory_Cls. apply preserves_bind; [auto with preserves|].
  intros [Minv|]; auto 20 with preserves.
Qed.

Lemma frame_after_all (linalg_inv : np.matrix -> result np.matrix)
  (history : list operation) (s : MaskDeconvolution) :
  frame s (after_all linalg_inv s history).
Proof.
  revert s. induction history as [|op t IH]; intros s.
  - apply frame_refl.
  - unfold after_all. cbn [fold_left].
    eapply frame_trans; [|apply IH].
    destruct op; cbn [after]; [apply preserves_call|apply preserves_convolve].
Qed.

(** [convolve_theory_Cls] assigns nothing. *)
Lemma convolve_keeps_instance (Clt : np.vector) (s : MaskDeconvolution) :
  fst (convolve_theory_Cls Clt s) = s.
Proof.
  unfold convolve_theory_Cls. rewrite bind_run. unfold getattr.
  destruct (Mbb_inv s) as [[Minv|]|]; [|reflexivity|reflexivity].
  rewrite bind_run, get_run. rewrite bind_run.
  unfold assert. destruct (length Clt =? lmax s + 1)%nat; [|reflexivity].
  rewrite ret_run. rewrite bind_run. unfold getattr.
  destruct (Mll s) as [M|]; [|reflexivity].
  rewrite bind_run, lift_run. destruct (np.dot M Clt) as [v|e]; [|reflexivity].
  unfold bin_Cls. rewrite !bind_run. unfold getattr.
  destruct (bins s) as [B|]; [|reflexivity].
  rewrite lift_run. destruct (np.dot B v) as [Cb|e]; reflexivity.
Qed.

(** ** The value of a call *)

Lemma init_binning_zero (s : MaskDeconvolution) :
  init_binning (set_lperBin 0 s) = (set_lperBin 0 s, Raise ZeroDivisionError).
Proof. reflexivity. Qed.

Lemma bin_matrix_run (s : MaskDeconvolution) (B U M : np.matrix) :
  bins s = Some B -> bins_no_weight s = Some U ->
  bin_matrix M s =
  (s, rbind (np.matmul B M) (fun t => np.matmul t (np.transpose U))).
Proof.
  intros HB HU. unfold bin_matrix.
  rewrite bind_run, (getattr_ok _ _ _ _ _ HB). cbv beta iota.
  rewrite bind_run, lift_run.
  destruct (np.matmul B M) as [t|e]; [|reflexivity].
  rewrite bind_run, (getattr_ok _ _ _ _ _ HU). reflexivity.
Qed.

Lemma bin_Cls_run (s : MaskDeconvolution) (B : np.matrix) (Cl : np.vector) :
  bins s = Some B -> bin_Cls Cl s = (s, np.dot B Cl).
Proof.
  intros HB. unfold bin_Cls.
  now rewrite bind_run, (getattr_ok _ _ _ _ _ HB).
Qed.

Section CallValue.

Variable linalg_inv : np.matrix -> result np.matrix.

(** When the operators are built, the rest of the call. *)
Lemma call_divides (s : MaskDeconvolution) (C_l : np.vector) (w : nat)
  (M : np.matrix) :
  length C_l = (lmax s + 1)%nat ->
  (0 < w)%nat -> ((lmax s + 1) mod w = 0)%nat ->
  Mll s = Some M ->
  snd (__call__ linalg_inv C_l w s) =
  rbind (np.matmul (block_operator (lmax s + 1) w (1 / INR w)) M) (fun t =>
  rbind (np.matmul t (np.transpose (block_operator (lmax s + 1) w 1)))
    (fun Mbb =>
  rbind (linalg_inv Mbb) (fun Minv =>
  rbind (np.dot (block_operator (lmax s + 1) w (1 / INR w)) C_l) (fun Cb =>
  rbind (np.vecmat Cb Minv) (fun Cb_decoupled =>
  Ok (centres (lmax s + 1) (block_operator (lmax s + 1) w (1 / INR w)),
      Cb_decoupled)))))).
Proof.
  intros Hlen Hw Hm HM. unfold __call__.
  run_step. rewrite bind_run, Hlen, Nat.eqb_refl. cbn [assert].
  rewrite ret_run. cbv beta iota.
  run_step.
  rewrite bind_run, (init_binning_ok s w Hw Hm). cbv beta iota.
  rewrite bind_run, (getattr_ok _ _ _ _ M) by exact HM. cbv beta iota.
  rewrite bind_run.
  erewrite bin_matrix_run by reflexivity.
  destruct (np.matmul (block_operator (lmax s + 1) w (1 / INR w)) M) as [t|e];
    [|reflexivity].
  cbn [rbind].
  destruct (np.matmul t (np.transpose (block_operator (lmax s + 1) w 1)))
    as [Mbb|e]; [|reflexivity].
  cbn [rbind]. cbv beta iota. rewrite bind_run, lift_run.
  destruct (linalg_inv Mbb) as [Minv|e]; [|reflexivity].
  cbn [rbind]. run_step. rewrite bind_run.
  erewrite bin_Cls_run by reflexivity.
  destruct (np.dot (block_operator (lmax s + 1) w (1 / INR w)) C_l) as [Cb|e];
    [|reflexivity].
  cbn [rbind]. rewrite bind_run. unfold decouple_Cls. rewrite lift_run.
  destruct (np.vecmat Cb Minv) as [Cbd|e]; [|reflexivity].
  cbn [rbind]. run_step. reflexivity.
Qed.

Lemma call_refines (s : MaskDeconvolution) (C_l : np.vector) (w : nat) :
  snd (__call__ linalg_inv C_l w s) =
  call_value linalg_inv (lmax s) (Mll s) C_l w.
Proof.
  unfold call_value.
  destruct (Nat.eqb_spec (length C_l) (lmax s + 1)) as [Hlen|Hlen];
    cbn [negb].
  - destruct (Nat.eqb_spec w 0) as [->|Hw].
    + unfold __call__. run_step.
      rewrite bind_run, Hlen, Nat.eqb_refl. cbn [assert].
      rewrite ret_run. cbv beta iota. run_step.
      rewrite bind_run, init_binning_zero. reflexivity.
    + destruct (Nat.eqb_spec ((lmax s + 1) mod w) 0) as [Hm|Hm]; cbn [negb].
      * destruct (Mll s) as [M|] eqn:HM.
        -- now apply call_divides; try lia.
        -- unfold __call__. run_step.
           rewrite bind_run, Hlen, Nat.eqb_refl. cbn [assert].
           rewrite ret_run. cbv beta iota. run_step.
           rewrite bind_run, (init_binning_ok s w ltac:(lia) Hm).
           cbv beta iota.
           rewrite bind_run, getattr_missing by exact HM. reflexivity.
      * unfold __call__. run_step.
        rewrite bind_run, Hlen, Nat.eqb_refl. cbn [assert].
        rewrite ret_run. cbv beta iota. run_step.
        rewrite bind_run, (init_binning_overshoot s w ltac:(lia) Hm).
        reflexivity.
  - unfold __call__. run_step. rewrite bind_run.
    replace (length C_l =? lmax s + 1)%nat with false
      by (symmetry; now apply Nat.eqb_neq).
    reflexivity.
Qed.

(** A spectrum of the wrong length: the call raises at once and assigns
    nothing. *)
Lemma call_wrong_length (s : MaskDeconvolution) (C_l : np.vector) (w : nat) :
  length C_l <> (lmax s + 1)%nat ->
  __call__ linalg_inv C_l w s = (s, Raise (AssertionError msg_C_l)).
Proof.
  intros Hlen. unfold __call__. run_step. rewrite bind_run.
  replace (length C_l =? lmax s + 1)%nat with false
    by (symmetry; now apply Nat.eqb_neq).
  reflexivity.
Qed.

End CallValue.

(** ** numpy products as index sums *)

Lemma bigsum_first (n : nat) (f : nat -> R) :
  bigsum (S n) f = f 0%nat + bigsum n (fun k => f (S k)).
Proof.
  unfold bigsum. cbn [seq map]. rewrite sum_cons.
  now rewrite <- seq_shift, map_map.
Qed.

Lemma bigsum_ext (n : nat) (f g : nat -> R) :
  (forall k, (k < n)%nat -> f k = g k) -> bigsum n f = bigsum n g.
Proof.
  intros H. unfold bigsum. apply sum_map_ext.
  intros k Hk. apply in_seq in Hk. apply H. lia.
Qed.

Lemma inner_bigsum (n : nat) (u v : np.vector) :
  length u = n -> length v = n ->
  np.sum (map (fun p => fst p * snd p) (combine u v)) =
  bigsum n (fun k => nth k u 0 * nth k v 0).
Proof.
  revert u v. induction n as [|n IH]; intros u v Hu Hv.
  - destruct u; [|discriminate]. reflexivity.
  - destruct u as [|x u]; [discriminate|]. destruct v as [|y v]; [discriminate|].
    cbn [combine map]. rewrite sum_cons, bigsum_first. cbn [fst snd nth].
    rewrite (IH u v) by (simpl in *; lia). reflexivity.
Qed.

Lemma map_by_index (A B : Type) (h : A -> B) (d : A) (l : list A) :
  map h l = map (fun i => h (nth i l d)) (seq 0 (length l)).
Proof.
  induction l as [|x t IH]; [reflexivity|].
  cbn [length seq map nth]. f_equal.
  rewrite <- seq_shift, map_map. exact IH.
Qed.

Lemma table_shape (r c : nat) (f : nat -> nat -> R) : shape r c (table r c f).
Proof.
  unfold table. split.
  - now rewrite length_map, length_seq.
  - apply Forall_forall. intros row Hrow. apply in_map_iff in Hrow.
    destruct Hrow as (i & <- & _). now rewrite length_map, length_seq.
Qed.

Lemma shape_first_row (r c : nat) (B : np.matrix) :
  shape r c B -> (0 < r)%nat -> length (hd [] B) = c.
Proof.
  intros HB Hr. pose proof (shape_row r c B 0 HB Hr) as H.
  destruct B; exact H.
Qed.

Lemma column_entry (r c : nat) (B : np.matrix) (i j : nat) :
  shape r c B -> (i < r)%nat ->
  nth i (map (fun row => nth j row 0) B) 0 = entry B i j.
Proof.
  intros [Hr _] Hi. unfold entry.
  rewrite (nth_indep _ 0 ((fun row => nth j row 0) []))
    by (rewrite length_map; lia).
  apply (map_nth (fun row : list R => nth j row 0)).
Qed.

Lemma dot_times_column (r n : nat) (A : np.matrix) (v : np.vector) :
  shape r n A -> length v = n -> np.dot A v = Ok (times_column r n A v).
Proof.
  intros HA Hv. rewrite (dot_ok r n A v HA Hv). f_equal.
  unfold times_column. rewrite (map_by_index _ _ _ [] A).
  destruct HA as [Hr Hc]. rewrite Hr. apply map_ext_in.
  intros i Hi. apply in_seq in Hi. apply inner_bigsum; [|exact Hv].
  apply (shape_row r n A i (conj Hr Hc)). lia.
Qed.

Lemma vecmat_row_times (n c : nat) (u : np.vector) (B : np.matrix) :
  length u = n -> shape n c B -> (0 < n)%nat ->
  np.vecmat u B = Ok (row_times n c u B).
Proof.
  intros Hu HB Hn. unfold np.vecmat.
  destruct HB as [Hr Hc]. rewrite Hu, Hr, Nat.eqb_refl.
  unfold np.transpose. rewrite (shape_first_row n c B (conj Hr Hc) Hn).
  rewrite (rmap_ok _ _ _
             (fun col => np.sum (map (fun p => fst p * snd p) (combine u col)))).
  - f_equal. rewrite map_map. unfold row_times. apply map_ext_in.
    intros j _. rewrite (inner_bigsum n) by (try rewrite length_map; lia).
    apply bigsum_ext. intros i Hi.
    now rewrite (column_entry n c B i j (conj Hr Hc) Hi).
  - intros col Hcol. apply in_map_iff in Hcol. destruct Hcol as (j & <- & _).
    apply dot1_ok. rewrite length_map. lia.
Qed.

Lemma matmul_product (r n c : nat) (A B : np.matrix) :
  shape r n A -> shape n c B -> (0 < n)%nat ->
  np.matmul A B = Ok (product r n c A B).
Proof.
  intros HA HB Hn. unfold np.matmul.
  rewrite (rmap_ok _ _ _ (fun row => row_times n c row B)).
  - f_equal. rewrite (map_by_index _ _ _ [] A).
    destruct HA as [Hr _]. rewrite Hr. reflexivity.
  - intros row Hrow. apply vecmat_row_times; [|exact HB|exact Hn].
    destruct HA as [_ Hc]. rewrite Forall_forall in Hc. now apply Hc.
Qed.

Lemma transpose_transposed (r c : nat) (U : np.matrix) :
  shape r c U -> (0 < r)%nat -> np.transpose U = transposed r c U.
Proof.
  intros HU Hr. unfold np.transpose, transposed, table.
  rewrite (shape_first_row r c U HU Hr). apply map_ext. intros j.
  rewrite (map_by_index _ _ _ [] U). destruct HU as [Hlen _].
  now rewrite Hlen.
Qed.

(** ** Properties of the calls *)

(** C2. On an instance with coupling matrix [M], when [init_binning] has
    built the operators [bins] and [bins_no_weight] and [np.linalg.inv]
    returns the inverse [Minv] of [bins M bins_no_weight^T], the call
    returns the bin centres and the row vector [bins C_l] multiplied on the
    right by [Minv]. *)
Theorem call_multiplication_order
  (linalg_inv : np.matrix -> result np.matrix)
  (s s1 : MaskDeconvolution) (C_l : np.vector) (w : nat)
  (M B U Minv : np.matrix) (ells : np.vector) :
  Mll s = Some M ->
  shape (lmax s + 1) (lmax s + 1) M ->
  length C_l = (lmax s + 1)%nat ->
  init_binning (set_lperBin w s) = (s1, Ok tt) ->
  bins s1 = Some B -> bins_no_weight s1 = Some U ->
  binned_ells s1 = Some ells ->
  linalg_inv
    (product (length B) (lmax s + 1) (length B)
       (product (length B) (lmax s + 1) (lmax s + 1) B M)
       (transposed (length B) (lmax s + 1) U)) = Ok Minv ->
  shape (length B) (length B) Minv ->
  snd (__call__ linalg_inv C_l w s) =
  Ok (ells,
      row_times (length B) (length B)
        (times_column (length B) (lmax s + 1) B C_l) Minv).
Proof.
  intros HM HsM Hlen Hinit HB HU Hells Hinv HsMinv.
  destruct (Nat.eq_dec w 0) as [->|Hw].
  { rewrite init_binning_zero in Hinit. discriminate. }
  destruct (Nat.eq_dec ((lmax s + 1) mod w) 0) as [Hm|Hm].
  2:{ rewrite init_binning_overshoot in Hinit by (try lia; exact Hm).
      discriminate. }
  rewrite init_binning_ok in Hinit by (try lia; exact Hm).
  injection Hinit as <-.
  cbn [bins bins_no_weight binned_ells set_binned_ells set_bins_no_weight
       set_bins] in HB, HU, Hells.
  injection HB as <-. injection HU as <-. injection Hells as <-.
  pose proof (block_operator_shape (lmax s + 1) w (1 / INR w) ltac:(lia)) as HsB.
  pose proof (block_operator_shape (lmax s + 1) w 1 ltac:(lia)) as HsU.
  assert (HNb : length (block_operator (lmax s + 1) w (1 / INR w))
                = ((lmax s + 1) / w)%nat) by (apply HsB).
  rewrite HNb in *.
  assert (Hq : (0 < (lmax s + 1) / w)%nat).
  { apply Nat.div_str_pos. split; [lia|].
    destruct (Nat.le_gt_cases w (lmax s + 1)) as [H|H]; [exact H|].
    rewrite Nat.mod_small in Hm by exact H. lia. }
  rewrite (call_divides linalg_inv s C_l w M Hlen ltac:(lia) Hm HM).
  rewrite (matmul_product _ _ _ _ _ HsB HsM) by lia. cbn [rbind].
  rewrite (transpose_transposed _ _ _ HsU Hq).
  rewrite (matmul_product ((lmax s + 1) / w) (lmax s + 1) ((lmax s + 1) / w))
    by (try apply table_shape; lia).
  cbn [rbind]. rewrite Hinv. cbn [rbind].
  rewrite (dot_times_column _ _ _ _ HsB Hlen). cbn [rbind].
  rewrite (vecmat_row_times ((lmax s + 1) / w) ((lmax s + 1) / w))
    by (try exact HsMinv; try exact Hq;
        unfold times_column; now rewrite length_map, length_seq).
  reflexivity.
Qed.

(** C6 on the code: with [lmax = 2] and [lperBin = 2] building the
    operators raises [IndexError], and so does the call.  The array has
    [3 // 2 = 1] row, and the loop over [range(0, 3, 2)] reaches [i = 2],
    whose row index [2 // 2 = 1] is not a row of it. *)
Theorem partial_block_raises (linalg_inv : np.matrix -> result np.matrix)
  (W0 : np.vector) (C0 C1 C2 : R) :
  exists s,
    __init__ threej000.Wigner3j 2 W0 = Ok s
    /\ snd (init_binning (set_lperBin 2 s)) = Raise IndexError
    /\ snd (__call__ linalg_inv [C0; C1; C2] 2 s) = Raise IndexError.
Proof.
  destruct (init_constructs threej000.Wigner3j 2 W0) as (M & Hi & _ & _).
  eexists. split; [exact Hi|]. split.
  - rewrite init_binning_overshoot; [reflexivity|lia|]. simpl. lia.
  - rewrite call_refines. reflexivity.
Qed.

(** C7, as the code has it.  A spectrum whose length is not [lmax + 1]
    makes [__call__] raise the length assertion at once, with nothing
    assigned; [convolve_theory_Cls] raises its length assertion on every
    instance that holds an inverse, and on every instance it raises and
    assigns nothing. *)
Theorem wrong_length_raises (linalg_inv : np.matrix -> result np.matrix)
  (s : MaskDeconvolution) (Cl : np.vector) (w : nat) :
  length Cl <> (lmax s + 1)%nat ->
  __call__ linalg_inv Cl w s = (s, Raise (AssertionError msg_C_l))
  /\ (forall Minv, Mbb_inv s = Some (Some Minv) ->
        convolve_theory_Cls Cl s = (s, Raise (AssertionError msg_Clt)))
  /\ exists e, convolve_theory_Cls Cl s = (s, Raise e).
Proof.
  intros Hlen.
  assert (Hb : (length Cl =? lmax s + 1)%nat = false) by now apply Nat.eqb_neq.
  split; [now apply call_wrong_length|]. split.
  - intros Minv HMinv. unfold convolve_theory_Cls.
    rewrite bind_run, (getattr_ok _ _ _ _ _ HMinv). cbv beta iota.
    run_step. rewrite bind_run, Hb. reflexivity.
  - unfold convolve_theory_Cls. rewrite bind_run. unfold getattr.
    destruct (Mbb_inv s) as [[Minv|]|].
    + run_step. rewrite bind_run, Hb. eexists. reflexivity.
    + eexists. reflexivity.
    + eexists. reflexivity.
Qed.

Lemma wrong_length_raises_witness :
  __call__ cofactor_inv [1] 1
    (mkMaskDeconvolution 1 [1; 0; 0] (threej000.Wigner3j 3)
       (Some [[1; 0]; [0; 1]]) (Some 1%nat) None None None (Some (Some [[1]])))
  = (mkMaskDeconvolution 1 [1; 0; 0] (threej000.Wigner3j 3)
       (Some [[1; 0]; [0; 1]]) (Some 1%nat) None None None (Some (Some [[1]])),
     Raise (AssertionError msg_C_l))
  /\ (forall Minv,
        Some (Some [[1]]) = Some (Some Minv) ->
        convolve_theory_Cls [1]
          (mkMaskDeconvolution 1 [1; 0; 0] (threej000.Wigner3j 3)
             (Some [[1; 0]; [0; 1]]) (Some 1%nat) None None None
             (Some (Some [[1]])))
        = (mkMaskDeconvolution 1 [1; 0; 0] (threej000.Wigner3j 3)
             (Some [[1; 0]; [0; 1]]) (Some 1%nat) None None None
             (Some (Some [[1]])),
           Raise (AssertionError msg_Clt)))
  /\ exists e,
       convolve_theory_Cls [1]
         (mkMaskDeconvolution 1 [1; 0; 0] (threej000.Wigner3j 3)
            (Some [[1; 0]; [0; 1]]) (Some 1%nat) None None None
            (Some (Some [[1]])))
       = (mkMaskDeconvolution 1 [1; 0; 0] (threej000.Wigner3j 3)
            (Some [[1; 0]; [0; 1]]) (Some 1%nat) None None None
            (Some (Some [[1]])),
          Raise e).
Proof.
  apply (wrong_length_raises cofactor_inv
           (mkMaskDeconvolution 1 [1; 0; 0] (threej000.Wigner3j 3)
              (Some [[1; 0]; [0; 1]]) (Some 1%nat) None None None
              (Some (Some [[1]]))) [1] 1).
  simpl. lia.
Defined.

(** C7 as stated fails for [convolve_theory_Cls] on an instance that has
    made no call yet: a spectrum one value short does not reach the length
    assertion. *)
Lemma wrong_length_on_new_instance :
  exists s,
    __init__ threej000.Wigner3j 1 [1] = Ok s
    /\ length [1] <> (lmax s + 1)%nat
    /\ convolve_theory_Cls [1] s <> (s, Raise (AssertionError msg_Clt)).
Proof.
  destruct (init_constructs threej000.Wigner3j 1 [1]) as (M & Hi & _ & _).
  eexists. split; [exact Hi|]. split; [simpl; lia|].
  unfold convolve_theory_Cls. rewrite bind_run.
  rewrite getattr_missing by reflexivity. discriminate.
Qed.

(** C8 on the code: on an instance that has made no call,
    [convolve_theory_Cls] raises [AttributeError] when it reads
    [self.Mbb_inv], which the constructor never assigns; the assertion
    that carries the documented message is not reached. *)
Theorem convolve_on_new_instance (Wigner3j : nat -> nat -> nat -> nat -> R)
  (lmax0 : nat) (W0 Clt : np.vector) :
  exists s,
    __init__ Wigner3j lmax0 W0 = Ok s
    /\ Mbb_inv s = None
    /\ convolve_theory_Cls Clt s = (s, Raise (AttributeError "Mbb_inv"))
    /\ convolve_theory_Cls Clt s <> (s, Raise (AssertionError msg_call_first)).
Proof.
  destruct (init_constructs Wigner3j lmax0 W0) as (M & Hi & _ & _).
  eexists. split; [exact Hi|]. split; [reflexivity|].
  assert (E : forall s0, Mbb_inv s0 = None ->
            convolve_theory_Cls Clt s0 = (s0, Raise (AttributeError "Mbb_inv"))).
  { intros s0 H0. unfold convolve_theory_Cls.
    now rewrite bind_run, getattr_missing by exact H0. }
  split; [now apply E|]. rewrite E by reflexivity. discriminate.
Qed.

(** C10. Whatever calls were made on an instance since its construction,
    a call returns or raises what the same call returns or raises on the
    instance as constructed: a function of [lmax], of the coupling matrix
    computed from [lmax] and [W_l], and of the arguments of the call. *)
Theorem call_history_independent
  (Wigner3j : nat -> nat -> nat -> nat -> R)
  (linalg_inv : np.matrix -> result np.matrix)
  (lmax0 : nat) (W0 : np.vector) (history : list operation)
  (C_l : np.vector) (w : nat) :
  exists s,
    __init__ Wigner3j lmax0 W0 = Ok s
    /\ snd (__call__ linalg_inv C_l w (after_all linalg_inv s history)) =
       snd (__call__ linalg_inv C_l w s)
    /\ snd (__call__ linalg_inv C_l w s) =
       call_value linalg_inv lmax0 (Mll s) C_l w.
Proof.
  destruct (init_constructs Wigner3j lmax0 W0) as (M & Hi & _ & _).
  eexists. split; [exact Hi|].
  rewrite !call_refines.
  match goal with |- context [after_all linalg_inv ?s0 history] =>
    destruct (frame_after_all linalg_inv history s0) as (E1 & _ & _ & E4)
  end.
  rewrite E1, E4. split; reflexivity.
Qed.

(** ** The cofactor inverse on small matrices *)

Lemma cofactor_inv_1x1 (a : R) :
  a <> 0 -> exists b, cofactor_inv [[a]] = Ok [[b]] /\ a * b = 1.
Proof.
  intros Ha. unfold cofactor_inv. cbn.
  destruct (Req_dec_T (1 * a * 1 + 0) 0) as [E|E]; [exfalso; lra|].
  eexists. split; [reflexivity|]. field. lra.
Qed.

Lemma cofactor_inv_2x2 (a b c d : R) :
  a * d - b * c <> 0 ->
  exists p q r t,
    cofactor_inv [[a; b]; [c; d]] = Ok [[p; q]; [r; t]]
    /\ a * p + b * r = 1 /\ a * q + b * t = 0
    /\ c * p + d * r = 0 /\ c * q + d * t = 1.
Proof.
  intros Hdet. unfold cofactor_inv. cbn.
  match goal with |- context [Req_dec_T ?x 0] =>
    destruct (Req_dec_T x 0) as [E|E]; [exfalso; apply Hdet; lra|]
  end.
  do 4 eexists. split; [reflexivity|].
  repeat split; field; lra.
Qed.

(** Two bins and a binned matrix [[1/2; 1]; [0; 1]] that is not symmetric:
    the binned spectrum is [1; 3], the inverse is [[2; -2]; [0; 1]], and
    the row vector times the inverse is [2; 1], where the inverse times
    the column would be [-4; 3]. *)
Lemma call_multiplication_order_witness :
  exists ells Cb_decoupled,
    snd (__call__ cofactor_inv [1; 2; 2; 4] 2
           (mkMaskDeconvolution 3 [1; 0; 0; 0; 0; 0; 0] (threej000.Wigner3j 7)
              (Some [[1; 0; 0; 0]; [0; 1; 2; 0]; [0; 0; 1; 0]; [0; 0; 0; 1]])
              None None None None None))
    = Ok (ells, Cb_decoupled)
    /\ ells = [1 / 2; 5 / 2] /\ Cb_decoupled = [2; 1].
Proof.
  do 2 eexists. split.
  - eapply (call_multiplication_order cofactor_inv
              (mkMaskDeconvolution 3 [1; 0; 0; 0; 0; 0; 0] (threej000.Wigner3j 7)
                 (Some [[1; 0; 0; 0]; [0; 1; 2; 0]; [0; 0; 1; 0]; [0; 0; 0; 1]])
                 None None None None None)
              _ [1; 2; 2; 4] 2).
    + reflexivity.
    + split; [reflexivity|]. repeat constructor.
    + reflexivity.
    + apply init_binning_ok; [lia|reflexivity].
    + reflexivity.
    + reflexivity.
    + reflexivity.
    + unfold cofactor_inv. cbn.
      match goal with |- context [Req_dec_T ?x 0] =>
        destruct (Req_dec_T x 0) as [E|E]; [exfalso; lra|]
      end.
      reflexivity.
    + cbn. split; [reflexivity|]. repeat constructor.
  - split.
    + cbn. f_equal; [|f_equal]; lra.
    + cbn. f_equal; [|f_equal]; field.
Defined.

(** * Further properties of the code *)

(** ** The constructor and the padding of the window *)

Lemma nth_pad (v : np.vector) (k l : nat) : nth l (np.pad v k) 0 = nth l v 0.
Proof.
  unfold np.pad. destruct (Nat.lt_ge_cases l (length v)) as [H|H].
  - now apply app_nth1.
  - rewrite app_nth2 by exact H. rewrite (nth_overflow v) by exact H.
    destruct (Nat.lt_ge_cases (l - length v) k) as [Hk|Hk].
    + now apply nth_repeat_lt.
    + apply nth_overflow. now rewrite repeat_length.
Qed.

(** X1. The constructor returns an instance for every [lmax] and every
    window array, the empty one included: the stored window has
    [max(len(W_l), 2 lmax + 1)] values, agrees with the given array where
    that is defined and is zero beyond it, the coupling matrix is
    [(lmax + 1) x (lmax + 1)], and no attribute of the binning is set. *)
Theorem constructor_pads_window (Wigner3j : nat -> nat -> nat -> nat -> R)
  (lmax0 : nat) (W0 : np.vector) :
  exists s M,
    __init__ Wigner3j lmax0 W0 = Ok s
    /\ lmax s = lmax0
    /\ length (W_l s) = Nat.max (length W0) (2 * lmax0 + 1)
    /\ (forall l, window s l = nth l W0 0)
    /\ Mll s = Some M /\ shape (lmax0 + 1) (lmax0 + 1) M
    /\ lperBin s = None /\ bins s = None /\ bins_no_weight s = None
    /\ binned_ells s = None /\ Mbb_inv s = None.
Proof.
  destruct (init_constructs Wigner3j lmax0 W0) as (M & Hi & Hs & _).
  eexists. exists M. split; [exact Hi|]. split; [reflexivity|]. split.
  { cbn [W_l]. unfold np.pad. rewrite length_app, repeat_length. lia. }
  split.
  { intros l. unfold window. cbn [W_l]. apply nth_pad. }
  split; [reflexivity|]. split; [exact Hs|]. repeat split.
Qed.

(** ** The window array that [get_M] needs *)

Lemma for__outcome (A : Type) (P : A -> Prop) (e : exn)
  (body : nat -> A -> method A) (s : MaskDeconvolution) (xs : list nat) :
  (forall x a, In x xs -> P a ->
     (exists a', body x a s = (s, Ok a') /\ P a') \/ body x a s = (s, Raise e)) ->
  forall a, P a ->
    (exists a', for_ xs body a s = (s, Ok a') /\ P a')
    \/ for_ xs body a s = (s, Raise e).
Proof.
  induction xs as [|x t IH]; intros Hb a Ha.
  - left. exists a. split; [reflexivity|exact Ha].
  - cbn [for_]. rewrite bind_run.
    destruct (Hb x a (or_introl eq_refl) Ha) as [(a' & -> & Ha')| ->].
    + apply IH; [|exact Ha']. intros y b Hy. apply Hb. now right.
    + now right.
Qed.

Lemma for__raises (A : Type) (P : A -> Prop) (e : exn)
  (body : nat -> A -> method A) (s : MaskDeconvolution) (xs : list nat)
  (x0 : nat) :
  (forall x a, In x xs -> P a ->
     (exists a', body x a s = (s, Ok a') /\ P a') \/ body x a s = (s, Raise e)) ->
  In x0 xs ->
  (forall a, P a -> body x0 a s = (s, Raise e)) ->
  forall a, P a -> for_ xs body a s = (s, Raise e).
Proof.
  induction xs as [|x t IH]; intros Hb Hin H0 a Ha; [contradiction|].
  cbn [for_]. rewrite bind_run.
  destruct Hin as [->|Hin].
  - now rewrite (H0 a Ha).
  - destruct (Hb x a (or_introl eq_refl) Ha) as [(a' & -> & Ha')| ->];
      [|reflexivity].
    apply IH; try assumption. intros y b Hy. apply Hb. now right.
Qed.

Lemma W_outcome (s : MaskDeconvolution) (l : nat) :
  (exists x, W l false s = (s, Ok x)) \/ W l false s = (s, Raise IndexError).
Proof.
  destruct (Nat.lt_ge_cases l (length (W_l s))) as [H|H].
  - left. eexists. now apply W_in_range.
  - right. now apply W_out_of_range.
Qed.

Lemma get_M_step_outcome (s : MaskDeconvolution) (l1 l2 l3 : nat)
  (M : np.matrix) :
  (l1 < lmax s + 1)%nat -> (l2 < lmax s + 1)%nat ->
  shape (lmax s + 1) (lmax s + 1) M ->
  (exists M',
     (if ((l1 + l2 + l3) mod 2 =? 0)%nat then
        (w <- W l3 false ;;
         lift (np.iadd2 M l1 l2
                 (INR ((2 * l2 + 1) * (2 * l3 + 1))
                  * (w3j000 s l1 l2 l3) ^ 2 * w)))%method
      else ret M) s = (s, Ok M')
     /\ shape (lmax s + 1) (lmax s + 1) M')
  \/ (if ((l1 + l2 + l3) mod 2 =? 0)%nat then
        (w <- W l3 false ;;
         lift (np.iadd2 M l1 l2
                 (INR ((2 * l2 + 1) * (2 * l3 + 1))
                  * (w3j000 s l1 l2 l3) ^ 2 * w)))%method
      else ret M) s = (s, Raise IndexError).
Proof.
  intros H1 H2 HM.
  destruct ((l1 + l2 + l3) mod 2 =? 0)%nat.
  - rewrite bind_run. destruct (W_outcome s l3) as [(x & ->)| ->].
    + rewrite lift_run.
      destruct (iadd2_in_range _ _ M l1 l2
                  (INR ((2 * l2 + 1) * (2 * l3 + 1)) * w3j000 s l1 l2 l3 ^ 2 * x)
                  HM H1 H2) as (M' & -> & HM' & _).
      left. exists M'. split; [reflexivity|exact HM'].
    + now right.
  - left. exists M. split; [reflexivity|exact HM].
Qed.

(** X2. On an instance whose window array has fewer than [2 lmax + 1]
    values, [get_M] without the debug window raises [IndexError]: the
    term [l1 = l2 = lmax], [l3 = 2 lmax] reads [W_l[2 lmax]].  The padding
    done by the constructor is the least that avoids it. *)
Theorem get_M_short_window_raises (s : MaskDeconvolution) :
  (length (W_l s) < 2 * lmax s + 1)%nat ->
  get_M false s = (s, Raise IndexError).
Proof.
  intros Hshort.
  unfold get_M. rewrite bind_run, get_run. cbv zeta. rewrite bind_run.
  rewrite (for__raises _ (shape (lmax s + 1) (lmax s + 1)) IndexError _ s
             (range 0 (lmax s + 1)) (lmax s)); [reflexivity| | | |].
  - intros l1 M Hl1 HM. unfold range in Hl1. apply in_seq in Hl1.
    apply (for__outcome _ (shape (lmax s + 1) (lmax s + 1)) IndexError);
      [|exact HM].
    intros l2 M2 Hl2 HM2. unfold range in Hl2. apply in_seq in Hl2.
    apply (for__outcome _ (shape (lmax s + 1) (lmax s + 1)) IndexError);
      [|exact HM2].
    intros l3 M3 _ HM3. apply get_M_step_outcome; [lia|lia|exact HM3].
  - unfold range. apply in_seq. lia.
  - intros M HM.
    apply (for__raises _ (shape (lmax s + 1) (lmax s + 1)) IndexError _ s
             (range 0 (lmax s + 1)) (lmax s)); [| | |exact HM].
    + intros l2 M2 Hl2 HM2. unfold range in Hl2. apply in_seq in Hl2.
      apply (for__outcome _ (shape (lmax s + 1) (lmax s + 1)) IndexError);
        [|exact HM2].
      intros l3 M3 _ HM3. apply get_M_step_outcome; [lia|lia|exact HM3].
    + unfold range. apply in_seq. lia.
    + intros M2 HM2.
      apply (for__raises _ (shape (lmax s + 1) (lmax s + 1)) IndexError _ s
               _ (2 * lmax s)%nat); [| | |exact HM2].
      * intros l3 M3 _ HM3. apply get_M_step_outcome; [lia|lia|exact HM3].
      * unfold range. apply in_seq. rewrite abs_diff_same. lia.
      * intros M3 _.
        replace ((lmax s + lmax s + 2 * lmax s) mod 2 =? 0)%nat with true.
        -- rewrite bind_run, W_out_of_range by lia. reflexivity.
        -- symmetry. apply Nat.eqb_eq.
           replace (lmax s + lmax s + 2 * lmax s)%nat with ((2 * lmax s) * 2)%nat
             by lia.
           apply Nat.Div0.mod_mul.
  - apply shape_zeros2.
Qed.

Lemma get_M_short_window_raises_witness :
  get_M false (mkMaskDeconvolution 1 [1; 2] (threej000.Wigner3j 3)
                 None None None None None None)
  = (mkMaskDeconvolution 1 [1; 2] (threej000.Wigner3j 3)
       None None None None None None, Raise IndexError).
Proof.
  apply (get_M_short_window_raises
           (mkMaskDeconvolution 1 [1; 2] (threej000.Wigner3j 3)
              None None None None None None)).
  simpl. lia.
Defined.

(** ** The first row and the first column of the coupling matrix *)

Lemma coupling_sum_first_row (w : nat -> nat -> nat -> R) (Wf : nat -> R)
  (l2 : nat) :
  coupling_sum w Wf 0 l2 = coupling_term w Wf 0 l2 l2.
Proof.
  unfold coupling_sum.
  replace (abs_diff 0 l2) with l2 by (unfold abs_diff; lia).
  replace (0 + l2 + 1 - l2)%nat with 1%nat by lia.
  cbn [seq filter].
  replace (Nat.even (0 + l2 + l2)) with true
    by (symmetry; apply Nat.even_spec; exists l2; lia).
  cbn [map]. rewrite sum_cons. unfold np.sum. simpl. ring.
Qed.

Lemma coupling_sum_first_column (w : nat -> nat -> nat -> R) (Wf : nat -> R)
  (l1 : nat) :
  coupling_sum w Wf l1 0 = coupling_term w Wf l1 0 l1.
Proof.
  unfold coupling_sum.
  replace (abs_diff l1 0) with l1 by (unfold abs_diff; lia).
  replace (l1 + 0 + 1 - l1)%nat with 1%nat by lia.
  cbn [seq filter].
  replace (Nat.even (l1 + 0 + l1)) with true
    by (symmetry; apply Nat.even_spec; exists l1; lia).
  cbn [map]. rewrite sum_cons. unfold np.sum. simpl. ring.
Qed.

(** X3. In the first row and the first column of the coupling matrix the
    sum has the single term [l3 = l]: [M[0, l] = (2 l + 1)^2
    wigner(0, l, l)^2 W(l) / (4 pi)] and [M[l, 0] = (2 l + 1)
    wigner(l, 0, l)^2 W(l) / (4 pi)], for any 3j provider. *)
Theorem coupling_matrix_first_row_and_column (s : MaskDeconvolution) :
  (2 * lmax s + 1 <= length (W_l s))%nat ->
  exists M,
    get_M false s = (s, Ok M)
    /\ forall l, (l <= lmax s)%nat ->
         entry M 0 l =
           INR (2 * l + 1) ^ 2 * w3j000 s 0 l l ^ 2 * window s l / (4 * PI)
         /\ entry M l 0 =
           INR (2 * l + 1) * w3j000 s l 0 l ^ 2 * window s l / (4 * PI).
Proof.
  intros Hpad.
  destruct (get_M_entries s false (window s)) as (M & HM & _ & HE).
  - intros l Hl. apply W_in_range. lia.
  - exists M. split; [exact HM|]. intros l Hl. split.
    + rewrite (HE 0%nat l) by lia. rewrite coupling_sum_first_row.
      unfold coupling_term. unfold Rdiv. ring.
    + rewrite (HE l 0%nat) by lia. rewrite coupling_sum_first_column.
      unfold coupling_term. change (INR (2 * 0 + 1)) with 1. unfold Rdiv. ring.
Qed.

Lemma coupling_matrix_first_row_and_column_witness :
  exists M,
    get_M false (mkMaskDeconvolution 1 [1; 2; 3] (threej000.Wigner3j 3)
                   None None None None None None)
    = (mkMaskDeconvolution 1 [1; 2; 3] (threej000.Wigner3j 3)
         None None None None None None, Ok M)
    /\ forall l, (l <= 1)%nat ->
         entry M 0 l =
           INR (2 * l + 1) ^ 2 * threej000.Wigner3j 3 0 l l ^ 2
           * nth l [1; 2; 3] 0 / (4 * PI)
         /\ entry M l 0 =
           INR (2 * l + 1) * threej000.Wigner3j 3 l 0 l ^ 2
           * nth l [1; 2; 3] 0 / (4 * PI).
Proof.
  apply (coupling_matrix_first_row_and_column
           (mkMaskDeconvolution 1 [1; 2; 3] (threej000.Wigner3j 3)
              None None None None None None)).
  simpl. lia.
Defined.

(** ** Which multipoles a bin holds *)

Lemma div_eq_block (l w b : nat) :
  (0 < w)%nat -> ((l / w =? b) = (b * w <=? l) && (l <? b * w + w))%nat.
Proof.
  intros Hw.
  pose proof (Nat.div_mod_eq l w) as Hl.
  pose proof (Nat.mod_upper_bound l w ltac:(lia)) as Hr.
  rewrite Nat.mul_comm in Hl.
  destruct (Nat.eqb_spec (l / w) b) as [E|E];
    destruct (Nat.leb_spec (b * w) l) as [H1|H1];
    destruct (Nat.ltb_spec l (b * w + w)) as [H2|H2];
    cbn [andb]; try reflexivity; exfalso.
  - subst b. lia.
  - subst b. lia.
  - subst b. lia.
  - apply E. symmetry. apply (Nat.div_unique l w b (l - b * w)); lia.
Qed.

Lemma block_operator_entry (L w b l : nat) (v : R) :
  (0 < w <= L)%nat -> (b < L / w)%nat ->
  entry (block_operator L w v) b l =
  if ((l / w =? b) && (1 <=? l))%nat then v else 0.
Proof.
  intros Hw Hb. unfold entry. destruct b as [|b].
  - rewrite block_operator_row0 by exact Hw. rewrite nth_block.
    rewrite (div_eq_block l w 0 (proj1 Hw)).
    repeat match goal with
      | |- context [(?a <=? ?b)%nat] => destruct (Nat.leb_spec a b)
      | |- context [(?a <? ?b)%nat] => destruct (Nat.ltb_spec a b)
      end; cbn [andb]; try reflexivity; exfalso; lia.
  - rewrite block_operator_row by lia. unfold block_row. rewrite nth_block.
    rewrite (div_eq_block l w (S b) (proj1 Hw)).
    repeat match goal with
      | |- context [(?a <=? ?b)%nat] => destruct (Nat.leb_spec a b)
      | |- context [(?a <? ?b)%nat] => destruct (Nat.ltb_spec a b)
      end; cbn [andb]; try reflexivity; exfalso; nia.
Qed.

Lemma width_fits (L w : nat) : (0 < L)%nat -> (L mod w = 0)%nat -> (w <= L)%nat.
Proof.
  intros HL Hm. destruct (Nat.le_gt_cases w L) as [H|H]; [exact H|].
  rewrite Nat.mod_small in Hm by exact H. lia.
Qed.

(** X4. When the bin width divides [lmax + 1], bin [b] of [bins_no_weight]
    has weight 1 on the multipole [l] exactly when [l >= 1] and
    [l // lperBin = b], and weight 0 otherwise; [bins] is [bins_no_weight]
    divided by [lperBin].  So every multipole from 1 to [lmax] is in one
    bin and the monopole is in none. *)
Theorem bin_membership (s : MaskDeconvolution) (w : nat) :
  (0 < w)%nat -> ((lmax s + 1) mod w = 0)%nat ->
  exists s' B U,
    init_binning (set_lperBin w s) = (s', Ok tt)
    /\ bins s' = Some B /\ bins_no_weight s' = Some U
    /\ shape ((lmax s + 1) / w) (lmax s + 1) B
    /\ shape ((lmax s + 1) / w) (lmax s + 1) U
    /\ forall b l, (b < (lmax s + 1) / w)%nat ->
         entry U b l = (if ((l / w =? b) && (1 <=? l))%nat then 1 else 0)
         /\ entry B b l = entry U b l / INR w.
Proof.
  intros Hw Hm.
  pose proof (width_fits (lmax s + 1) w ltac:(lia) Hm) as HL.
  do 3 eexists. split; [apply (init_binning_ok s w Hw Hm)|].
  split; [reflexivity|]. split; [reflexivity|].
  split; [now apply block_operator_shape|].
  split; [now apply block_operator_shape|].
  intros b l Hb. rewrite !block_operator_entry by (try lia; exact Hb).
  split; [reflexivity|].
  destruct ((l / w =? b) && (1 <=? l))%nat; unfold Rdiv; ring.
Qed.

Lemma bin_membership_witness :
  exists s' B U,
    init_binning
      (set_lperBin 2 (mkMaskDeconvolution 3 [1] (threej000.Wigner3j 7)
                        None None None None None None)) = (s', Ok tt)
    /\ bins s' = Some B /\ bins_no_weight s' = Some U
    /\ shape ((3 + 1) / 2) (3 + 1) B
    /\ shape ((3 + 1) / 2) (3 + 1) U
    /\ forall b l, (b < (3 + 1) / 2)%nat ->
         entry U b l = (if ((l / 2 =? b) && (1 <=? l))%nat then 1 else 0)
         /\ entry B b l = entry U b l / INR 2.
Proof.
  apply (bin_membership
           (mkMaskDeconvolution 3 [1] (threej000.Wigner3j 7)
              None None None None None None) 2).
  - lia.
  - reflexivity.
Defined.

(** ** Binning a constant spectrum *)

Lemma inner_constant (c : R) (row : np.vector) :
  np.sum (map (fun p => fst p * snd p) (combine row (repeat c (length row)))) =
  c * np.sum row.
Proof.
  induction row as [|x t IH]; [simpl; ring|].
  cbn [length repeat combine map]. rewrite !sum_cons, IH. cbn [fst snd]. ring.
Qed.

(** X5. When the bin width divides [lmax + 1], a constant spectrum
    [C_l = c] is binned to [c] in every bin after the first, and to
    [c (lperBin - 1) / lperBin] in the first. *)
Theorem constant_spectrum_binned (s : MaskDeconvolution) (w : nat) (c : R) :
  (0 < w)%nat -> ((lmax s + 1) mod w = 0)%nat ->
  exists s' Cb,
    init_binning (set_lperBin w s) = (s', Ok tt)
    /\ bin_Cls (repeat c (lmax s + 1)) s' = (s', Ok Cb)
    /\ length Cb = ((lmax s + 1) / w)%nat
    /\ nth 0 Cb 0 = c * (INR w - 1) / INR w
    /\ forall b, (1 <= b < (lmax s + 1) / w)%nat -> nth b Cb 0 = c.
Proof.
  intros Hw Hm.
  pose proof (width_fits (lmax s + 1) w ltac:(lia) Hm) as HL.
  pose proof (block_operator_shape (lmax s + 1) w (1 / INR w) Hw) as HsB.
  assert (Hw0 : INR w <> 0) by (apply not_0_INR; lia).
  assert (Hq : (0 < (lmax s + 1) / w)%nat) by (apply Nat.div_str_pos; lia).
  do 2 eexists. split; [apply (init_binning_ok s w Hw Hm)|].
  split.
  { erewrite bin_Cls_run by reflexivity.
    rewrite (dot_ok _ _ _ _ HsB) by apply repeat_length. reflexivity. }
  assert (Hnth : forall b, (b < (lmax s + 1) / w)%nat ->
            nth b (map (fun row =>
                          np.sum (map (fun p => fst p * snd p)
                                    (combine row (repeat c (lmax s + 1)))))
                     (block_operator (lmax s + 1) w (1 / INR w))) 0
            = c * np.sum (nth b (block_operator (lmax s + 1) w (1 / INR w)) [])).
  { intros b Hb.
    rewrite (nth_indep _ 0
               ((fun row => np.sum (map (fun p => fst p * snd p)
                                      (combine row (repeat c (lmax s + 1))))) []))
      by (rewrite length_map; destruct HsB as [-> _]; exact Hb).
    rewrite (map_nth (fun row =>
                        np.sum (map (fun p => fst p * snd p)
                                  (combine row (repeat c (lmax s + 1)))))).
    pose proof (inner_constant c
                  (nth b (block_operator (lmax s + 1) w (1 / INR w)) [])) as Hc.
    rewrite (shape_row _ _ _ b HsB Hb) in Hc. exact Hc. }
  split; [rewrite length_map; apply HsB|]. split.
  - rewrite Hnth by exact Hq. rewrite block_operator_row0 by lia.
    rewrite sum_block, minus_INR by lia. change (INR 1) with 1. now field.
  - intros b Hb. rewrite Hnth by lia. rewrite block_operator_row by exact Hb.
    unfold block_row. rewrite sum_block. now field.
Qed.

Lemma constant_spectrum_binned_witness :
  exists s' Cb,
    init_binning
      (set_lperBin 2 (mkMaskDeconvolution 3 [1] (threej000.Wigner3j 7)
                        None None None None None None)) = (s', Ok tt)
    /\ bin_Cls (repeat 5 (3 + 1)) s' = (s', Ok Cb)
    /\ length Cb = ((3 + 1) / 2)%nat
    /\ nth 0 Cb 0 = 5 * (INR 2 - 1) / INR 2
    /\ forall b, (1 <= b < (3 + 1) / 2)%nat -> nth b Cb 0 = 5.
Proof.
  apply (constant_spectrum_binned
           (mkMaskDeconvolution 3 [1] (threej000.Wigner3j 7)
              None None None None None None) 2 5).
  - lia.
  - reflexivity.
Defined.

(** ** A bin width of one *)

Lemma bigsum_zero (n : nat) (f : nat -> R) :
  (forall k, (k < n)%nat -> f k = 0) -> bigsum n f = 0.
Proof.
  intros H. unfold bigsum. apply sum_map_zero.
  intros k Hk. apply in_seq in Hk. apply H. lia.
Qed.

Lemma table_entry (r c : nat) (f : nat -> nat -> R) (i j : nat) :
  entry (table r c f) i j = if ((i <? r) && (j <? c))%nat then f i j else 0.
Proof.
  unfold entry, table.
  destruct (Nat.ltb_spec i r) as [Hi|Hi]; cbn [andb].
  - rewrite (nth_indep _ [] ((fun i => map (fun j => f i j) (seq 0 c)) 0%nat))
      by (rewrite length_map, length_seq; exact Hi).
    rewrite (map_nth (fun i => map (fun j => f i j) (seq 0 c))).
    rewrite seq_nth by exact Hi. cbn [Nat.add].
    destruct (Nat.ltb_spec j c) as [Hj|Hj].
    + rewrite (nth_indep _ 0 ((fun j => f i j) 0%nat))
        by (rewrite length_map, length_seq; exact Hj).
      rewrite (map_nth (fun j => f i j)). now rewrite seq_nth by exact Hj.
    + apply nth_overflow. now rewrite length_map, length_seq.
  - rewrite (nth_overflow (map _ _)) by (now rewrite length_map, length_seq).
    now destruct j.
Qed.

Lemma cofactor_inv_zero_row (A : np.matrix) :
  A <> [] -> (forall j, entry A 0 j = 0) -> cofactor_inv A = Raise LinAlgError.
Proof.
  intros HA Hz. unfold cofactor_inv.
  destruct (forallb (fun row => (length row =? length A)%nat) A);
    [|reflexivity].
  destruct A as [|row rest]; [contradiction|].
  cbn [length det].
  rewrite bigsum_zero.
  - destruct (Req_dec_T 0 0); [reflexivity|contradiction].
  - intros j _. specialize (Hz j). unfold entry in Hz. cbn [nth] in Hz.
    rewrite Hz. ring.
Qed.

(** X6. With [lperBin = 1] the call cannot return: the monopole is the
    only multipole of the first bin, so the first row of [bins] and with
    it the first row of the binned matrix are zero, and an inverse routine
    that raises [LinAlgError] on a matrix with a zero first row makes the
    call raise it, whatever the window and the spectrum are. *)
Theorem unit_bin_width_is_singular
  (linalg_inv : np.matrix -> result np.matrix)
  (s : MaskDeconvolution) (C_l : np.vector) (M : np.matrix) :
  Mll s = Some M ->
  shape (lmax s + 1) (lmax s + 1) M ->
  length C_l = (lmax s + 1)%nat ->
  (forall A, A <> [] -> (forall j, entry A 0 j = 0) ->
             linalg_inv A = Raise LinAlgError) ->
  snd (__call__ linalg_inv C_l 1 s) = Raise LinAlgError.
Proof.
  intros HM HsM Hlen Hinv.
  assert (Hm : ((lmax s + 1) mod 1 = 0)%nat) by apply Nat.mod_1_r.
  pose proof (block_operator_shape (lmax s + 1) 1 (1 / INR 1) ltac:(lia)) as HsB.
  pose proof (block_operator_shape (lmax s + 1) 1 1 ltac:(lia)) as HsU.
  rewrite (call_divides linalg_inv s C_l 1 M Hlen ltac:(lia) Hm HM).
  rewrite (matmul_product _ _ _ _ _ HsB HsM) by lia. cbn [rbind].
  rewrite (transpose_transposed _ _ _ HsU)
    by (rewrite Nat.div_1_r; lia).
  rewrite (matmul_product ((lmax s + 1) / 1) (lmax s + 1) ((lmax s + 1) / 1))
    by (try apply table_shape; lia).
  cbn [rbind]. rewrite Hinv; [reflexivity| |].
  - unfold product, table. rewrite Nat.div_1_r.
    replace (lmax s + 1)%nat with (S (lmax s)) by lia. discriminate.
  - intros j. unfold product at 1. rewrite table_entry.
    destruct ((0 <? (lmax s + 1) / 1) && (j <? (lmax s + 1) / 1))%nat;
      [|reflexivity].
    apply bigsum_zero. intros k Hk. unfold product. rewrite table_entry.
    destruct ((0 <? (lmax s + 1) / 1) && (k <? lmax s + 1))%nat; [|ring].
    rewrite bigsum_zero; [ring|].
    intros k' _. rewrite block_operator_entry
      by (rewrite ?Nat.div_1_r; lia).
    rewrite Nat.div_1_r.
    destruct (Nat.eqb_spec k' 0) as [->|]; cbn [andb Nat.leb]; ring.
Qed.

Lemma unit_bin_width_is_singular_witness :
  snd (__call__ cofactor_inv [5; 7] 1
         (mkMaskDeconvolution 1 [1; 0; 0] (threej000.Wigner3j 3)
            (Some [[1; 0]; [0; 1]]) None None None None None))
  = Raise LinAlgError.
Proof.
  apply (unit_bin_width_is_singular cofactor_inv
           (mkMaskDeconvolution 1 [1; 0; 0] (threej000.Wigner3j 3)
              (Some [[1; 0]; [0; 1]]) None None None None None)
           [5; 7] [[1; 0]; [0; 1]]).
  - reflexivity.
  - split; [reflexivity|]. repeat constructor.
  - reflexivity.
  - exact cofactor_inv_zero_row.
Defined.

(** ** A call that returns, and the theory convolution after it *)

Lemma call_returns (linalg_inv : np.matrix -> result np.matrix)
  (s : MaskDeconvolution) (C_l : np.vector) (w : nat)
  (M t Mbb Minv : np.matrix) (Cb Cbd : np.vector) :
  length C_l = (lmax s + 1)%nat ->
  (0 < w)%nat -> ((lmax s + 1) mod w = 0)%nat ->
  Mll s = Some M ->
  np.matmul (block_operator (lmax s + 1) w (1 / INR w)) M = Ok t ->
  np.matmul t (np.transpose (block_operator (lmax s + 1) w 1)) = Ok Mbb ->
  linalg_inv Mbb = Ok Minv ->
  np.dot (block_operator (lmax s + 1) w (1 / INR w)) C_l = Ok Cb ->
  np.vecmat Cb Minv = Ok Cbd ->
  __call__ linalg_inv C_l w s =
  (set_Mbb_inv (Some Minv)
     (set_binned_ells
        (centres (lmax s + 1) (block_operator (lmax s + 1) w (1 / INR w)))
        (set_bins_no_weight (block_operator (lmax s + 1) w 1)
           (set_bins (block_operator (lmax s + 1) w (1 / INR w))
              (set_lperBin w s)))),
   Ok (centres (lmax s + 1) (block_operator (lmax s + 1) w (1 / INR w)), Cbd)).
Proof.
  intros Hlen Hw Hm HM Ht HMbb Hinv HCb HCbd. unfold __call__.
  run_step. rewrite bind_run, Hlen, Nat.eqb_refl. cbn [assert].
  rewrite ret_run. cbv beta iota.
  run_step.
  rewrite bind_run, (init_binning_ok s w Hw Hm). cbv beta iota.
  rewrite bind_run, (getattr_ok _ _ _ _ M) by exact HM. cbv beta iota.
  rewrite bind_run.
  erewrite bin_matrix_run by reflexivity.
  rewrite Ht. cbn [rbind]. rewrite HMbb. cbv beta iota.
  rewrite bind_run, lift_run, Hinv. cbv beta iota.
  run_step. rewrite bind_run.
  erewrite bin_Cls_run by reflexivity.
  rewrite HCb. cbv beta iota.
  rewrite bind_run. unfold decouple_Cls. rewrite lift_run, HCbd. cbv beta iota.
  run_step. reflexivity.
Qed.

(** X7. When a call returns, the inverse it computed is stored in
    [Mbb_inv], and from then on [convolve_theory_Cls] on a spectrum of
    length [lmax + 1] returns the row vector [bins (M Clt)] multiplied on
    the right by that inverse, and leaves the instance as it is. *)
Theorem convolve_after_call
  (linalg_inv : np.matrix -> result np.matrix)
  (s : MaskDeconvolution) (C_l : np.vector) (w : nat) (M Minv : np.matrix) :
  Mll s = Some M ->
  shape (lmax s + 1) (lmax s + 1) M ->
  length C_l = (lmax s + 1)%nat ->
  (0 < w)%nat -> ((lmax s + 1) mod w = 0)%nat ->
  linalg_inv
    (product ((lmax s + 1) / w) (lmax s + 1) ((lmax s + 1) / w)
       (product ((lmax s + 1) / w) (lmax s + 1) (lmax s + 1)
          (block_operator (lmax s + 1) w (1 / INR w)) M)
       (transposed ((lmax s + 1) / w) (lmax s + 1)
          (block_operator (lmax s + 1) w 1))) = Ok Minv ->
  shape ((lmax s + 1) / w) ((lmax s + 1) / w) Minv ->
  exists s' r,
    __call__ linalg_inv C_l w s = (s', Ok r)
    /\ Mbb_inv s' = Some (Some Minv)
    /\ forall Clt, length Clt = (lmax s + 1)%nat ->
         convolve_theory_Cls Clt s' =
         (s', Ok (row_times ((lmax s + 1) / w) ((lmax s + 1) / w)
                    (times_column ((lmax s + 1) / w) (lmax s + 1)
                       (block_operator (lmax s + 1) w (1 / INR w))
                       (times_column (lmax s + 1) (lmax s + 1) M Clt))
                    Minv)).
Proof.
  intros HM HsM Hlen Hw Hm Hinv HsMinv.
  pose proof (width_fits (lmax s + 1) w ltac:(lia) Hm) as HL.
  pose proof (block_operator_shape (lmax s + 1) w (1 / INR w) Hw) as HsB.
  pose proof (block_operator_shape (lmax s + 1) w 1 Hw) as HsU.
  assert (Hq : (0 < (lmax s + 1) / w)%nat) by (apply Nat.div_str_pos; lia).
  assert (Hvec : forall v, length v = (lmax s + 1)%nat ->
            rbind (np.dot (block_operator (lmax s + 1) w (1 / INR w)) v)
              (fun Cb => np.vecmat Cb Minv) =
            Ok (row_times ((lmax s + 1) / w) ((lmax s + 1) / w)
                  (times_column ((lmax s + 1) / w) (lmax s + 1)
                     (block_operator (lmax s + 1) w (1 / INR w)) v) Minv)).
  { intros v Hv. rewrite (dot_times_column _ _ _ _ HsB Hv). cbn [rbind].
    apply vecmat_row_times; [|exact HsMinv|exact Hq].
    unfold times_column. now rewrite length_map, length_seq. }
  do 2 eexists. split.
  { eapply (call_returns linalg_inv s C_l w M); try eassumption.
    - apply (matmul_product _ _ _ _ _ HsB HsM). lia.
    - rewrite (transpose_transposed _ _ _ HsU Hq).
      apply (matmul_product ((lmax s + 1) / w) (lmax s + 1) ((lmax s + 1) / w));
        try apply table_shape; lia.
    - apply (dot_times_column _ _ _ _ HsB Hlen).
    - apply vecmat_row_times; [|exact HsMinv|exact Hq].
      unfold times_column. now rewrite length_map, length_seq. }
  split; [reflexivity|].
  intros Clt HClt. unfold convolve_theory_Cls.
  run_step. run_step.
  rewrite bind_run.
  cbn [lmax set_Mbb_inv set_binned_ells set_bins_no_weight set_bins set_lperBin].
  rewrite HClt, Nat.eqb_refl. cbn [assert]. rewrite ret_run. cbv beta iota.
  rewrite bind_run, (getattr_ok _ _ _ _ M) by exact HM. cbv beta iota.
  rewrite bind_run, lift_run, (dot_times_column _ _ _ _ HsM HClt).
  cbv beta iota. rewrite bind_run.
  erewrite bin_Cls_run by reflexivity.
  pose proof (Hvec (times_column (lmax s + 1) (lmax s + 1) M Clt)) as Hv.
  rewrite (dot_times_column _ _ _ _ HsB) in Hv |- *
    by (unfold times_column; now rewrite length_map, length_seq).
  cbn [rbind] in Hv. cbv beta iota. unfold decouple_Cls. rewrite lift_run.
  rewrite Hv by (unfold times_column; now rewrite length_map, length_seq).
  reflexivity.
Qed.

Lemma convolve_after_call_witness :
  exists Minv s' r,
    __call__ cofactor_inv [5; 7] 2
      (mkMaskDeconvolution 1 [1; 0; 0] (threej000.Wigner3j 3)
         (Some [[1; 0]; [0; 1]]) None None None None None) = (s', Ok r)
    /\ Mbb_inv s' = Some (Some Minv)
    /\ forall Clt, length Clt = (1 + 1)%nat ->
         convolve_theory_Cls Clt s' =
         (s', Ok (row_times ((1 + 1) / 2) ((1 + 1) / 2)
                    (times_column ((1 + 1) / 2) (1 + 1)
                       (block_operator (1 + 1) 2 (1 / INR 2))
                       (times_column (1 + 1) (1 + 1) [[1; 0]; [0; 1]] Clt))
                    Minv)).
Proof.
  eexists.
  eapply (convolve_after_call cofactor_inv
            (mkMaskDeconvolution 1 [1; 0; 0] (threej000.Wigner3j 3)
               (Some [[1; 0]; [0; 1]]) None None None None None)
            [5; 7] 2 [[1; 0]; [0; 1]]).
  - reflexivity.
  - split; [reflexivity|]. repeat constructor.
  - reflexivity.
  - lia.
  - reflexivity.
  - unfold cofactor_inv. cbn.
    match goal with |- context [Req_dec_T ?x 0] =>
      destruct (Req_dec_T x 0) as [E|E]; [exfalso; lra|]
    end.
    reflexivity.
  - cbn. split; [reflexivity|]. repeat constructor.
Defined.

(** ** A call that raises while it builds the operators *)

(** X8. When the bin width does not divide [lmax + 1], the call raises
    [IndexError] after it has assigned [lperBin], [bins] and
    [bins_no_weight]: the instance keeps [Mbb_inv] and [binned_ells] of
    the call before, beside operators of [(lmax + 1) // lperBin] rows for
    the new width. *)
Theorem failed_call_keeps_inverse
  (linalg_inv : np.matrix -> result np.matrix)
  (s : MaskDeconvolution) (C_l : np.vector) (w : nat) :
  length C_l = (lmax s + 1)%nat ->
  (0 < w)%nat -> ((lmax s + 1) mod w <> 0)%nat ->
  exists s' B U,
    __call__ linalg_inv C_l w s = (s', Raise IndexError)
    /\ Mbb_inv s' = Mbb_inv s
    /\ binned_ells s' = binned_ells s
    /\ lperBin s' = Some w
    /\ bins s' = Some B /\ bins_no_weight s' = Some U
    /\ shape ((lmax s + 1) / w) (lmax s + 1) B
    /\ shape ((lmax s + 1) / w) (lmax s + 1) U.
Proof.
  intros Hlen Hw Hm.
  assert (Hshape : forall v,
            shape ((lmax s + 1) / w) (lmax s + 1)
              (partial_rows (lmax s + 1) w ((lmax s + 1) / w)
                 ((lmax s + 1) / w) v)).
  { intros v. rewrite partial_rows_full. split.
    - now rewrite length_map, length_seq.
    - apply Forall_forall. intros row Hrow. apply in_map_iff in Hrow.
      destruct Hrow as (b & <- & Hb). apply in_seq in Hb.
      apply block_row_length.
      pose proof (Nat.Div0.mul_div_le (lmax s + 1) w) as Hle.
      rewrite Nat.mul_comm in Hle. nia. }
  do 3 eexists. split.
  { unfold __call__. run_step.
    rewrite bind_run, Hlen, Nat.eqb_refl. cbn [assert].
    rewrite ret_run. cbv beta iota. run_step.
    rewrite bind_run, (init_binning_overshoot s w Hw Hm). reflexivity. }
  split; [reflexivity|]. split; [reflexivity|]. split; [reflexivity|].
  split; [reflexivity|]. split; [reflexivity|].
  split; apply Hshape.
Qed.

Lemma failed_call_keeps_inverse_witness :
  exists s' B U,
    __call__ cofactor_inv [5; 7; 9] 2
      (mkMaskDeconvolution 2 [1; 0; 0; 0; 0] (threej000.Wigner3j 5)
         (Some [[1; 0; 0]; [0; 1; 0]; [0; 0; 1]]) (Some 3%nat)
         (Some [[0; / 3; / 3]]) (Some [[0; 1; 1]]) (Some [1])
         (Some (Some [[3 / 2]])))
    = (s', Raise IndexError)
    /\ Mbb_inv s' = Some (Some [[3 / 2]])
    /\ binned_ells s' = Some [1]
    /\ lperBin s' = Some 2%nat
    /\ bins s' = Some B /\ bins_no_weight s' = Some U
    /\ shape ((2 + 1) / 2) (2 + 1) B
    /\ shape ((2 + 1) / 2) (2 + 1) U.
Proof.
  apply (failed_call_keeps_inverse cofactor_inv
           (mkMaskDeconvolution 2 [1; 0; 0; 0; 0] (threej000.Wigner3j 5)
              (Some [[1; 0; 0]; [0; 1; 0]; [0; 0; 1]]) (Some 3%nat)
              (Some [[0; / 3; / 3]]) (Some [[0; 1; 1]]) (Some [1])
              (Some (Some [[3 / 2]]))) [5; 7; 9] 2).
  - reflexivity.
  - lia.
  - simpl. lia.
Defined.

(** ** The alternative binning matrix *)

Lemma ceil_bounds (x : R) : x <= IZR (ceil x) < x + 1.
Proof.
  unfold ceil. destruct (archimed x) as [Hup Hlow].
  destruct (Req_dec_T (IZR (up x - 1)) x) as [E|E].
  - rewrite E. lra.
  - rewrite minus_IZR in E. lra.
Qed.

Lemma ceil_pos (x : R) : 0 < x -> (1 <= ceil x)%Z.
Proof.
  intros Hx. destruct (ceil_bounds x) as [Hle _].
  assert (H : (0 < ceil x)%Z) by (apply lt_IZR; lra). lia.
Qed.

Lemma dell_sqrt_pos (step l : nat) :
  (1 <= l)%nat ->
  (1 <= Z.to_nat (ceil (sqrt (4 * INR l) + INR step)))%nat.
Proof.
  intros Hl.
  assert (H1 : 1 <= INR l) by (change 1 with (INR 1); now apply le_INR).
  assert (H2 : 0 < sqrt (4 * INR l)) by (apply sqrt_lt_R0; lra).
  pose proof (pos_INR step) as H3.
  pose proof (ceil_pos (sqrt (4 * INR l) + INR step) ltac:(lra)). lia.
Qed.

Lemma edge_lower (dell : nat -> nat) (k : nat) :
  (forall l, (2 <= l)%nat -> (1 <= dell l)%nat) ->
  (2 + k <= edge dell k)%nat.
Proof.
  intros Hd. induction k as [|k IH]; [simpl; lia|].
  cbn [edge]. specialize (Hd (edge dell k) ltac:(lia)). lia.
Qed.

Lemma span_rows_step (dell : nat -> nat) (Nl k : nat) :
  (forall l, (2 <= l)%nat -> (1 <= dell l)%nat) ->
  (edge dell (S k) <= Nl)%nat ->
  np.setrowslice (span_rows dell Nl k) k (edge dell k)
    (Nat.min (edge dell (S k)) Nl)
    (1 / INR (edge dell (S k) - edge dell k)) =
  Ok (span_rows dell Nl (S k)).
Proof.
  intros Hd HL.
  pose proof (edge_lower dell (S k) Hd) as Hlow.
  rewrite Nat.min_l by exact HL.
  unfold np.setrowslice, span_rows.
  replace (Nl - k)%nat with (S (Nl - S k)) by lia. cbn [repeat].
  set (done := map (fun i => span_row Nl (edge dell i) (dell (edge dell i)))
                 (seq 0 k)).
  assert (Hlen : length done = k)
    by (unfold done; now rewrite length_map, length_seq).
  rewrite nth_error_app2 by lia.
  rewrite Hlen at 1. rewrite Nat.sub_diag. cbn [nth_error].
  rewrite <- Hlen at 1. rewrite update_app.
  unfold np.zeros. rewrite setslice_zeros by (cbn [edge] in *; lia).
  rewrite seq_S, map_app, <- app_assoc. cbn [map app Nat.add].
  unfold span_row. cbn [edge].
  replace (edge dell k + dell (edge dell k) - edge dell k)%nat
    with (dell (edge dell k)) by lia.
  replace (Nl - (edge dell k + dell (edge dell k)))%nat
    with (Nl - edge dell k - dell (edge dell k))%nat by lia.
  reflexivity.
Qed.

Lemma binning_loop_runs (dell : nat -> nat) (Nl : nat) :
  (forall l, (2 <= l)%nat -> (1 <= dell l)%nat) ->
  forall fuel k,
    (forall i, (i < k)%nat -> (edge dell (S i) <= Nl)%nat) ->
    (Nl + 2 <= fuel + edge dell (S k))%nat -> (1 <= fuel)%nat ->
    exists n,
      binning_loop fuel dell Nl (span_rows dell Nl k) k
        (edge dell k) (edge dell (S k)) =
      Some (Ok (span_rows dell Nl n, n))
      /\ (forall i, (i < n)%nat -> (edge dell (S i) <= Nl)%nat)
      /\ (Nl < edge dell (S n))%nat.
Proof.
  intros Hd. induction fuel as [|fuel IH]; intros k Hk Hfuel H1; [lia|].
  cbn [binning_loop].
  destruct (Nat.leb_spec (edge dell (S k)) Nl) as [HL|HL].
  - pose proof (edge_lower dell k Hd) as Hlow.
    pose proof (Hd (edge dell k) ltac:(lia)) as Hdk.
    replace (edge dell (S k) - edge dell k =? 0)%nat with false
      by (symmetry; apply Nat.eqb_neq; cbn [edge]; lia).
    cbn [rbind]. rewrite (span_rows_step dell Nl k Hd HL).
    rewrite Nat.add_1_r.
    pose proof (Hd (edge dell (S k)) ltac:(cbn [edge]; lia)) as Hdk1.
    destruct (IH (S k)) as (n & Hn & Hall & Hout).
    + intros i Hi. destruct (Nat.eq_dec i k) as [->|]; [exact HL|].
      apply Hk. lia.
    + cbn [edge] in *. lia.
    + cbn [edge] in *. lia.
    + exists n. split; [exact Hn|]. split; assumption.
  - exists k. split; [reflexivity|]. split; assumption.
Qed.

Lemma firstn_length_app (A : Type) (l l' : list A) :
  firstn (length l) (l ++ l') = l.
Proof.
  induction l as [|x t IH]; [reflexivity|]. cbn. now rewrite IH.
Qed.

(** With steps of at least one the loop ends by its own test, and the
    rows returned are the spans between consecutive boundaries. *)
Lemma binning_matrix_spans (type : string) (step : nat)
  (s : MaskDeconvolution) (dell : nat -> nat) :
  dell_of type step = Some dell ->
  (forall l, (2 <= l)%nat -> (1 <= dell l)%nat) ->
  exists n,
    binning_matrix type step s =
    Some (inl (map (fun i => span_row (lmax s + 1) (edge dell i)
                               (dell (edge dell i))) (seq 0 n)))
    /\ (forall i, (i < n)%nat -> (edge dell (S i) <= lmax s + 1)%nat)
    /\ (lmax s + 1 < edge dell (S n))%nat.
Proof.
  intros Hdell Hd. unfold binning_matrix. cbv zeta. rewrite Hdell.
  destruct (binning_loop_runs dell (lmax s + 1) Hd (lmax s + 1 + 1) 0)
    as (n & Hn & Hall & Hout).
  - intros i Hi. lia.
  - pose proof (edge_lower dell 1 Hd). lia.
  - lia.
  - unfold span_rows at 1 in Hn. cbn [seq map app edge] in Hn.
    rewrite Nat.sub_0_r in Hn.
    change (repeat (np.zeros (lmax s + 1)) (lmax s + 1))
      with (np.zeros2 (lmax s + 1) (lmax s + 1)) in Hn.
    rewrite Hn. exists n. split; [|split; assumption].
    unfold span_rows.
    replace n with
      (length (map (fun i => span_row (lmax s + 1) (edge dell i)
                                (dell (edge dell i))) (seq 0 n))) at 1
      by (now rewrite length_map, length_seq).
    now rewrite firstn_length_app.
Qed.

Lemma dell_of_steps (type : string) (step : nat) (dell : nat -> nat) :
  dell_of type step = Some dell ->
  type = "sqrt"%string \/ (1 <= step)%nat ->
  forall l, (2 <= l)%nat -> (1 <= dell l)%nat.
Proof.
  unfold dell_of. intros Hdell Hcase l Hl.
  destruct (String.eqb_spec type "linear") as [->|_].
  - injection Hdell as <-. destruct Hcase as [H|H]; [discriminate|exact H].
  - destruct (String.eqb_spec type "sqrt") as [_|_]; [|discriminate].
    injection Hdell as <-. apply dell_sqrt_pos. lia.
Qed.

Lemma span_row_length (Nl a d : nat) :
  (a + d <= Nl)%nat -> length (span_row Nl a d) = Nl.
Proof.
  intros H. unfold span_row. rewrite !length_app, !repeat_length. lia.
Qed.

Lemma nth_span (dell : nat -> nat) (Nl n b : nat) :
  (b < n)%nat ->
  nth b (map (fun i => span_row Nl (edge dell i) (dell (edge dell i)))
           (seq 0 n)) [] =
  span_row Nl (edge dell b) (dell (edge dell b)).
Proof.
  intros Hb.
  rewrite (nth_indep _ []
             ((fun i => span_row Nl (edge dell i) (dell (edge dell i))) 0%nat))
    by (rewrite length_map, length_seq; exact Hb).
  rewrite (map_nth (fun i => span_row Nl (edge dell i) (dell (edge dell i)))).
  now rewrite seq_nth by exact Hb.
Qed.

(** X9. For the type ['sqrt'] with a non-negative step, and for the type
    ['linear'] with a step of at least one, [binning_matrix] returns,
    whatever [lmax] is.  Row [b] of the result has [lmax + 1] entries that
    sum to one: the weight
    [1 / (e(b+1) - e(b))] on the multipoles from [e(b)] to [e(b+1) - 1] and
    zero elsewhere, where [e(0) = 2] and [e(b+1) = e(b) + dell(e(b))].  The
    bins follow one another from [l = 2] on, the last one ends at or before
    [lmax], and the monopole and the dipole have no weight. *)
Theorem binning_matrix_rows (type : string) (step : nat)
  (s : MaskDeconvolution) :
  type = "sqrt"%string \/ (type = "linear"%string /\ (1 <= step)%nat) ->
  exists dell B,
    dell_of type step = Some dell
    /\ binning_matrix type step s = Some (inl B)
    /\ (lmax s + 1 < edge dell (S (length B)))%nat
    /\ forall b, (b < length B)%nat ->
         (edge dell b < edge dell (S b) <= lmax s + 1)%nat
         /\ length (nth b B []) = (lmax s + 1)%nat
         /\ row_sum B b = 1
         /\ forall l,
              entry B b l =
              if ((edge dell b <=? l) && (l <? edge dell (S b)))%nat
              then 1 / INR (edge dell (S b) - edge dell b) else 0.
Proof.
  intros Hcase.
  assert (Hsome : exists dell, dell_of type step = Some dell).
  { unfold dell_of. destruct Hcase as [->|[-> _]]; eexists; reflexivity. }
  destruct Hsome as (dell & Hdell).
  assert (Hd : forall l, (2 <= l)%nat -> (1 <= dell l)%nat).
  { apply (dell_of_steps type step dell Hdell).
    destruct Hcase as [H|[_ H]]; [now left|now right]. }
  destruct (binning_matrix_spans type step s dell Hdell Hd)
    as (n & HB & Hall & Hout).
  exists dell. eexists. split; [exact Hdell|]. split; [exact HB|].
  rewrite length_map, length_seq. split; [exact Hout|].
  intros b Hb. specialize (Hall b Hb).
  pose proof (edge_lower dell b Hd) as Hlow.
  pose proof (Hd (edge dell b) ltac:(lia)) as Hdb.
  assert (Hw : (edge dell (S b) - edge dell b = dell (edge dell b))%nat)
    by (cbn [edge]; lia).
  assert (Hw0 : INR (dell (edge dell b)) <> 0) by (apply not_0_INR; lia).
  split; [cbn [edge] in *; lia|]. split; [|split].
  - rewrite nth_span by exact Hb. apply span_row_length. cbn [edge] in Hall. lia.
  - unfold row_sum. rewrite nth_span by exact Hb. unfold span_row.
    rewrite sum_block. now field.
  - intros l. unfold entry. rewrite nth_span by exact Hb. unfold span_row.
    rewrite nth_block, Hw. cbn [edge]. reflexivity.
Qed.

Lemma binning_matrix_rows_witness :
  exists dell B,
    dell_of "linear" 3 = Some dell
    /\ binning_matrix "linear" 3
         (mkMaskDeconvolution 9 [1] (threej000.Wigner3j 19)
            None None None None None None) = Some (inl B)
    /\ (9 + 1 < edge dell (S (length B)))%nat
    /\ forall b, (b < length B)%nat ->
         (edge dell b < edge dell (S b) <= 9 + 1)%nat
         /\ length (nth b B []) = (9 + 1)%nat
         /\ row_sum B b = 1
         /\ forall l,
              entry B b l =
              if ((edge dell b <=? l) && (l <? edge dell (S b)))%nat
              then 1 / INR (edge dell (S b) - edge dell b) else 0.
Proof.
  apply (binning_matrix_rows "linear" 3
           (mkMaskDeconvolution 9 [1] (threej000.Wigner3j 19)
              None None None None None None)).
  right. split; [reflexivity|lia].
Defined.

Lemma edge_linear (step k : nat) : edge (fun _ => step) k = (2 + k * step)%nat.
Proof.
  induction k as [|k IH]; [reflexivity|]. cbn [edge]. rewrite IH. lia.
Qed.

(** X10. For the type ['linear'] with a step of at least one,
    [binning_matrix] returns [max(lmax - 1, 0) // step] rows, and row [b]
    has the weight [1 / step] on the multipole [l] exactly when [l >= 2]
    and [(l - 2) // step = b].  A last block that does not fit below
    [lmax + 1] is left out; no such step makes it raise. *)
Theorem binning_matrix_linear (step : nat) (s : MaskDeconvolution) :
  (1 <= step)%nat ->
  exists B,
    binning_matrix "linear" step s = Some (inl B)
    /\ length B = ((lmax s + 1 - 2) / step)%nat
    /\ forall b l, (b < length B)%nat ->
         entry B b l =
         if ((2 <=? l) && ((l - 2) / step =? b))%nat then 1 / INR step else 0.
Proof.
  intros Hstep.
  destruct (binning_matrix_spans "linear" step s (fun _ => step) eq_refl)
    as (n & HB & Hall & Hout); [intros; exact Hstep|].
  eexists. split; [exact HB|].
  rewrite length_map, length_seq.
  rewrite edge_linear in Hout.
  assert (Hn : (n * step <= lmax s + 1 - 2)%nat).
  { destruct n as [|n]; [lia|].
    specialize (Hall n ltac:(lia)). rewrite edge_linear in Hall. lia. }
  assert (Hdiv : ((lmax s + 1 - 2) / step = n)%nat).
  { symmetry.
    apply (Nat.div_unique (lmax s + 1 - 2) step n (lmax s + 1 - 2 - n * step));
      lia. }
  split; [now rewrite Hdiv|].
  intros b l Hb. unfold entry. rewrite nth_span by exact Hb. unfold span_row.
  rewrite nth_block, edge_linear.
  rewrite (div_eq_block (l - 2) step b Hstep).
  repeat match goal with
    | |- context [(?a <=? ?b)%nat] => destruct (Nat.leb_spec a b)
    | |- context [(?a <? ?b)%nat] => destruct (Nat.ltb_spec a b)
    end; cbn [andb]; try reflexivity; exfalso; lia.
Qed.

Lemma binning_matrix_linear_witness :
  exists B,
    binning_matrix "linear" 3
      (mkMaskDeconvolution 9 [1] (threej000.Wigner3j 19)
         None None None None None None) = Some (inl B)
    /\ length B = ((9 + 1 - 2) / 3)%nat
    /\ forall b l, (b < length B)%nat ->
         entry B b l =
         if ((2 <=? l) && ((l - 2) / 3 =? b))%nat then 1 / INR 3 else 0.
Proof.
  apply (binning_matrix_linear 3
           (mkMaskDeconvolution 9 [1] (threej000.Wigner3j 19)
              None None None None None None)).
  lia.
Defined.

(** X11. For a step that is a non-negative integer, [binning_matrix]
    always ends.  It raises [RuntimeError] exactly when [type] is neither
    ['linear'] nor ['sqrt'], it raises [ZeroDivisionError] exactly for
    ['linear'] with [step = 0] and [lmax >= 1], and in every other case it
    returns a matrix; for such a step it never raises [IndexError]. *)
Theorem binning_matrix_outcome (type : string) (step : nat)
  (s : MaskDeconvolution) :
  exists B,
    binning_matrix type step s =
    if negb (String.eqb type "linear") && negb (String.eqb type "sqrt")
    then Some (inr (RuntimeError "Unknown step type."))
    else if (String.eqb type "linear" && (step =? 0) && (1 <=? lmax s))%nat
    then Some (inr (Builtin ZeroDivisionError))
    else Some (inl B).
Proof.
  destruct (String.eqb_spec type "linear") as [->|Hlin]; cbn [negb andb].
  - destruct step as [|step]; cbn [Nat.eqb andb].
    + unfold binning_matrix. cbv zeta. cbn [dell_of String.eqb Ascii.eqb Bool.eqb].
      rewrite !Nat.add_1_r.
      destruct (lmax s) as [|m]; cbn [Nat.leb]; exists [];
        cbn [Nat.add binning_loop Nat.leb Nat.sub Nat.eqb rbind];
        reflexivity.
    + destruct (binning_matrix_spans "linear" (S step) s (fun _ => S step)
                  eq_refl) as (n & HB & _); [intros; lia|].
      eexists. exact HB.
  - destruct (String.eqb_spec type "sqrt") as [->|Hsqrt]; cbn [negb].
    + destruct (binning_matrix_spans "sqrt" step s
                  (fun ell => Z.to_nat (ceil (sqrt (4 * INR ell) + INR step)))
                  eq_refl) as (n & HB & _).
      * intros l Hl. apply dell_sqrt_pos. lia.
      * eexists. exact HB.
    + exists []. unfold binning_matrix, dell_of. cbv zeta.
      destruct (String.eqb_spec type "linear") as [E|_]; [contradiction|].
      destruct (String.eqb_spec type "sqrt") as [E|_]; [contradiction|].
      reflexivity.
Qed.

(** ** The full sky: an identity coupling matrix *)

Lemma bigsum_kronecker (n a : nat) (f : nat -> R) :
  (a < n)%nat -> bigsum n (fun k => if (k =? a)%nat then f k else 0) = f a.
Proof.
  revert a f. induction n as [|n IH]; intros a f Ha; [lia|].
  rewrite bigsum_first. destruct a as [|a].
  - cbn [Nat.eqb]. rewrite bigsum_zero; [ring|]. intros k _. reflexivity.
  - cbn [Nat.eqb]. rewrite (IH a (fun k => f (S k))) by lia. ring.
Qed.

Lemma sum_as_bigsum (row : np.vector) :
  np.sum row = bigsum (length row) (fun k => nth k row 0).
Proof.
  unfold bigsum. rewrite <- (map_by_index _ _ (fun x => x) 0 row).
  now rewrite map_id.
Qed.

Lemma nth_map_seq (c j : nat) (f : nat -> R) :
  (j < c)%nat -> nth j (map f (seq 0 c)) 0 = f j.
Proof.
  intros Hj.
  rewrite (nth_indep _ 0 (f 0%nat)) by (rewrite length_map, length_seq; exact Hj).
  rewrite (map_nth f). now rewrite seq_nth by exact Hj.
Qed.

Lemma weighted_span (a n r : nat) (v : R) (f : nat -> R) :
  np.sum (map (fun p => fst p * snd p)
            (combine (repeat 0 a ++ repeat v n ++ repeat 0 r)
               (map f (seq 0 (a + n + r))))) =
  v * np.sum (map f (seq a n)).
Proof.
  rewrite <- Nat.add_assoc, weighted_prefix.
  cbn [Nat.add]. rewrite weighted_prefix, weighted_zeros. ring.
Qed.

Lemma span_times (a n r : nat) (v : R) (g : nat -> R) :
  bigsum (a + n + r)
    (fun k => nth k (repeat 0 a ++ repeat v n ++ repeat 0 r) 0 * g k) =
  v * np.sum (map g (seq a n)).
Proof.
  rewrite <- (weighted_span a n r v g).
  rewrite (inner_bigsum (a + n + r))
    by (rewrite ?length_app, ?repeat_length, ?length_map, ?length_seq; lia).
  apply bigsum_ext. intros k Hk. now rewrite nth_map_seq by exact Hk.
Qed.

Section FullSky.

Variable s : MaskDeconvolution.
Variable w : nat.
Variable M : np.matrix.
Hypothesis w_two : (2 <= w)%nat.
Hypothesis w_divides : ((lmax s + 1) mod w = 0)%nat.
Hypothesis M_shape : shape (lmax s + 1) (lmax s + 1) M.
Hypothesis M_identity :
  forall i j, (i < lmax s + 1)%nat -> (j < lmax s + 1)%nat ->
    entry M i j = if (i =? j)%nat then 1 else 0.

Lemma full_sky_fits : (0 < w <= lmax s + 1)%nat.
Proof.
  split; [lia|]. apply width_fits; [lia|exact w_divides].
Qed.

Lemma full_sky_rows (b : nat) :
  (b < (lmax s + 1) / w)%nat ->
  exists a n r,
    nth b (block_operator (lmax s + 1) w (1 / INR w)) [] =
      repeat 0 a ++ repeat (1 / INR w) n ++ repeat 0 r
    /\ (a + n + r = lmax s + 1)%nat /\ (1 <= n)%nat
    /\ included (block_operator (lmax s + 1) w (1 / INR w)) b = seq a n.
Proof.
  intros Hb. pose proof full_sky_fits as Hfit.
  assert (Hv : 1 / INR w <> 0).
  { unfold Rdiv. rewrite Rmult_1_l. apply Rinv_neq_0_compat.
    apply not_0_INR. lia. }
  destruct b as [|b].
  - exists 1%nat, (w - 1)%nat, (lmax s + 1 - w)%nat.
    split; [now apply block_operator_row0|]. split; [lia|]. split; [lia|].
    now apply included_first.
  - assert (HbL : (S b * w + w <= lmax s + 1)%nat).
    { pose proof (Nat.Div0.mul_div_le (lmax s + 1) w) as Hle.
      rewrite Nat.mul_comm in Hle. nia. }
    exists (S b * w)%nat, w, (lmax s + 1 - S b * w - w)%nat.
    split; [apply block_operator_row; lia|]. split; [lia|]. split; [lia|].
    apply included_later; [lia|lia|exact Hv].
Qed.

(** With an identity coupling matrix the binned matrix is diagonal, with
    the row sums of [bins] on its diagonal. *)
Lemma full_sky_binned_matrix (a b : nat) :
  (a < (lmax s + 1) / w)%nat -> (b < (lmax s + 1) / w)%nat ->
  entry
    (product ((lmax s + 1) / w) (lmax s + 1) ((lmax s + 1) / w)
       (product ((lmax s + 1) / w) (lmax s + 1) (lmax s + 1)
          (block_operator (lmax s + 1) w (1 / INR w)) M)
       (transposed ((lmax s + 1) / w) (lmax s + 1)
          (block_operator (lmax s + 1) w 1))) a b =
  if (a =? b)%nat
  then row_sum (block_operator (lmax s + 1) w (1 / INR w)) a else 0.
Proof.
  intros Ha Hb. pose proof full_sky_fits as Hfit.
  pose proof (block_operator_shape (lmax s + 1) w (1 / INR w) ltac:(lia)) as HsB.
  unfold product at 1. rewrite table_entry.
  replace ((a <? (lmax s + 1) / w) && (b <? (lmax s + 1) / w))%nat with true
    by (symmetry; apply andb_true_intro; split; now apply Nat.ltb_lt).
  rewrite (bigsum_ext _ _
             (fun k => entry (block_operator (lmax s + 1) w (1 / INR w)) a k
                       * entry (block_operator (lmax s + 1) w 1) b k)).
  - destruct (Nat.eqb_spec a b) as [->|Hab].
    + unfold row_sum. rewrite sum_as_bigsum, (shape_row _ _ _ b HsB Hb).
      apply bigsum_ext. intros k _.
      rewrite !block_operator_entry by (try exact Hfit; exact Hb).
      change (nth k (nth b (block_operator (lmax s + 1) w (1 / INR w)) []) 0)
        with (entry (block_operator (lmax s + 1) w (1 / INR w)) b k).
      rewrite block_operator_entry by (try exact Hfit; exact Hb).
      destruct ((k / w =? b) && (1 <=? k))%nat; ring.
    + apply bigsum_zero. intros k _.
      rewrite !block_operator_entry by (try exact Hfit; assumption).
      destruct (Nat.eqb_spec (k / w) a), (Nat.eqb_spec (k / w) b);
        cbn [andb]; try ring.
      exfalso. congruence.
  - intros k Hk. unfold product, transposed. rewrite !table_entry.
    replace ((a <? (lmax s + 1) / w) && (k <? lmax s + 1))%nat with true
      by (symmetry; apply andb_true_intro; split; now apply Nat.ltb_lt).
    replace ((k <? lmax s + 1) && (b <? (lmax s + 1) / w))%nat with true
      by (symmetry; apply andb_true_intro; split; now apply Nat.ltb_lt).
    f_equal.
    rewrite (bigsum_ext _ _
               (fun k' => if (k' =? k)%nat
                          then entry (block_operator (lmax s + 1) w (1 / INR w))
                                 a k'
                          else 0)).
    + now apply bigsum_kronecker.
    + intros k' Hk'. rewrite (M_identity k' k Hk' Hk).
      destruct (k' =? k)%nat; ring.
Qed.

Lemma full_sky_row_sum (b : nat) :
  (b < (lmax s + 1) / w)%nat ->
  row_sum (block_operator (lmax s + 1) w (1 / INR w)) b =
  INR (length (included (block_operator (lmax s + 1) w (1 / INR w)) b)) / INR w
  /\ (1 <= length (included (block_operator (lmax s + 1) w (1 / INR w)) b))%nat.
Proof.
  intros Hb. destruct (full_sky_rows b Hb) as (a & n & r & Hrow & _ & Hn & Hinc).
  rewrite Hinc, length_seq. split; [|exact Hn].
  unfold row_sum. rewrite Hrow, sum_block. unfold Rdiv. ring.
Qed.

(** X12. With an identity coupling matrix (the full sky), a bin width of
    at least two that divides [lmax + 1], and an inverse routine that
    returns a right inverse of the binned matrix, the call returns in every
    bin the plain mean of [C_l] over the multipoles the bin includes: the
    division by the binned matrix makes up for the weight that the first
    bin lost with the monopole. *)
Theorem full_sky_call_gives_bin_means
  (linalg_inv : np.matrix -> result np.matrix)
  (C_l : np.vector) (Mbb Minv : np.matrix) :
  Mll s = Some M ->
  length C_l = (lmax s + 1)%nat ->
  Mbb =
    product ((lmax s + 1) / w) (lmax s + 1) ((lmax s + 1) / w)
      (product ((lmax s + 1) / w) (lmax s + 1) (lmax s + 1)
         (block_operator (lmax s + 1) w (1 / INR w)) M)
      (transposed ((lmax s + 1) / w) (lmax s + 1)
         (block_operator (lmax s + 1) w 1)) ->
  linalg_inv Mbb = Ok Minv ->
  shape ((lmax s + 1) / w) ((lmax s + 1) / w) Minv ->
  (forall i j, (i < (lmax s + 1) / w)%nat -> (j < (lmax s + 1) / w)%nat ->
     bigsum ((lmax s + 1) / w) (fun k => entry Mbb i k * entry Minv k j) =
     if (i =? j)%nat then 1 else 0) ->
  exists ells Cb_decoupled,
    snd (__call__ linalg_inv C_l w s) = Ok (ells, Cb_decoupled)
    /\ length Cb_decoupled = ((lmax s + 1) / w)%nat
    /\ forall b, (b < (lmax s + 1) / w)%nat ->
         nth b Cb_decoupled 0 =
         np.sum (map (fun l => nth l C_l 0)
                   (included (block_operator (lmax s + 1) w (1 / INR w)) b))
         / INR (length
                  (included (block_operator (lmax s + 1) w (1 / INR w)) b)).
Proof.
  intros HM Hlen HMbb Hinv HsMinv Hright. subst Mbb.
  pose proof full_sky_fits as Hfit.
  pose proof (block_operator_shape (lmax s + 1) w (1 / INR w) ltac:(lia)) as HsB.
  pose proof (block_operator_shape (lmax s + 1) w 1 ltac:(lia)) as HsU.
  assert (Hq : (0 < (lmax s + 1) / w)%nat) by (apply Nat.div_str_pos; lia).
  assert (Hw0 : INR w <> 0) by (apply not_0_INR; lia).
  rewrite (call_divides linalg_inv s C_l w M Hlen ltac:(lia) w_divides HM).
  rewrite (matmul_product _ _ _ _ _ HsB M_shape) by lia. cbn [rbind].
  rewrite (transpose_transposed _ _ _ HsU Hq).
  rewrite (matmul_product ((lmax s + 1) / w) (lmax s + 1) ((lmax s + 1) / w))
    by (try apply table_shape; lia).
  cbn [rbind]. rewrite Hinv. cbn [rbind].
  rewrite (dot_times_column _ _ _ _ HsB Hlen). cbn [rbind].
  rewrite (vecmat_row_times ((lmax s + 1) / w) ((lmax s + 1) / w))
    by (try exact HsMinv; try exact Hq;
        unfold times_column; now rewrite length_map, length_seq).
  do 2 eexists. split; [reflexivity|]. split.
  { unfold row_times. now rewrite length_map, length_seq. }
  intros b Hb.
  destruct (full_sky_rows b Hb) as (a & n & r & Hrow & Hsum & Hn & Hinc).
  assert (Hn0 : INR n <> 0) by (apply not_0_INR; lia).
  assert (Hd : forall i, (i < (lmax s + 1) / w)%nat ->
            row_sum (block_operator (lmax s + 1) w (1 / INR w)) i <> 0).
  { intros i Hi. destruct (full_sky_row_sum i Hi) as [-> Hpos].
    apply Rmult_integral_contrapositive_currified;
      [apply not_0_INR; lia|now apply Rinv_neq_0_compat]. }
  assert (Hinv_entry : forall i, (i < (lmax s + 1) / w)%nat ->
            row_sum (block_operator (lmax s + 1) w (1 / INR w)) i
            * entry Minv i b = if (i =? b)%nat then 1 else 0).
  { intros i Hi. rewrite <- (Hright i b Hi Hb).
    rewrite (bigsum_ext _ _
               (fun k => if (k =? i)%nat
                         then row_sum (block_operator (lmax s + 1) w (1 / INR w)) i
                              * entry Minv k b
                         else 0)).
    - now rewrite bigsum_kronecker.
    - intros k Hk. rewrite (full_sky_binned_matrix i k Hi Hk).
      rewrite (Nat.eqb_sym k i).
      destruct (Nat.eqb_spec i k) as [->|]; ring. }
  unfold row_times. rewrite nth_map_seq by exact Hb.
  rewrite (bigsum_ext _ _
             (fun i => if (i =? b)%nat
                       then nth i (times_column ((lmax s + 1) / w) (lmax s + 1)
                                     (block_operator (lmax s + 1) w (1 / INR w))
                                     C_l) 0
                            * entry Minv i b
                       else 0)).
  2:{ intros i Hi. destruct (Nat.eqb_spec i b) as [->|Hib]; [reflexivity|].
      pose proof (Hinv_entry i Hi) as Hz.
      replace (i =? b)%nat with false in Hz
        by (symmetry; now apply Nat.eqb_neq).
      apply Rmult_integral in Hz. destruct Hz as [Hz|Hz].
      - exfalso. now apply (Hd i Hi).
      - rewrite Hz. ring. }
  rewrite bigsum_kronecker by exact Hb.
  pose proof (Hinv_entry b Hb) as Hbb. rewrite Nat.eqb_refl in Hbb.
  unfold times_column. rewrite nth_map_seq by exact Hb.
  unfold row_sum in Hbb. rewrite Hrow, sum_block in Hbb.
  unfold entry at 1.
  rewrite (bigsum_ext _ _
             (fun k => nth k (repeat 0 a ++ repeat (1 / INR w) n ++ repeat 0 r) 0
                       * nth k C_l 0))
    by (intros k _; unfold entry; now rewrite Hrow).
  rewrite Hinc, length_seq. rewrite <- Hsum, span_times.
  assert (Hx : entry Minv b b = INR w / INR n).
  { apply Rmult_eq_reg_l with (r := INR n * (1 / INR w)).
    - rewrite Hbb. field. split; assumption.
    - apply Rmult_integral_contrapositive_currified; [exact Hn0|].
      unfold Rdiv. rewrite Rmult_1_l. now apply Rinv_neq_0_compat. }
  rewrite Hx. field. split; assumption.
Qed.

End FullSky.

Lemma full_sky_call_gives_bin_means_witness :
  exists ells Cb_decoupled,
    snd (__call__ cofactor_inv [5; 7] 2
           (mkMaskDeconvolution 1 [1; 0; 0] (threej000.Wigner3j 3)
              (Some [[1; 0]; [0; 1]]) None None None None None))
    = Ok (ells, Cb_decoupled)
    /\ length Cb_decoupled = ((1 + 1) / 2)%nat
    /\ forall b, (b < (1 + 1) / 2)%nat ->
         nth b Cb_decoupled 0 =
         np.sum (map (fun l => nth l [5; 7] 0)
                   (included (block_operator (1 + 1) 2 (1 / INR 2)) b))
         / INR (length (included (block_operator (1 + 1) 2 (1 / INR 2)) b)).
Proof.
  eapply (full_sky_call_gives_bin_means
            (mkMaskDeconvolution 1 [1; 0; 0] (threej000.Wigner3j 3)
               (Some [[1; 0]; [0; 1]]) None None None None None)
            2 [[1; 0]; [0; 1]]).
  - lia.
  - reflexivity.
  - split; [reflexivity|]. repeat constructor.
  - intros i j Hi Hj. cbn in Hi, Hj.
    destruct i as [|[|i]], j as [|[|j]]; try lia; reflexivity.
  - reflexivity.
  - reflexivity.
  - reflexivity.
  - unfold cofactor_inv. cbn.
    match goal with |- context [Req_dec_T ?x 0] =>
      destruct (Req_dec_T x 0) as [E|E]; [exfalso; lra|]
    end.
    reflexivity.
  - cbn. split; [reflexivity|]. repeat constructor.
  - intros i j Hi Hj. cbn in Hi, Hj.
    assert (i = 0%nat) by lia. assert (j = 0%nat) by lia. subst.
    cbn. field; lra.
Defined.

(** ** What the calls leave behind *)

(** X13. [convolve_theory_Cls] assigns no attribute, whether it returns or
    raises, so a second convolution is not affected by a first one. *)
Theorem theory_convolution_is_read_only (Clt Clt' : np.vector)
  (s : MaskDeconvolution) :
  fst (convolve_theory_Cls Clt s) = s
  /\ convolve_theory_Cls Clt' (fst (convolve_theory_Cls Clt s)) =
     convolve_theory_Cls Clt' s.
Proof.
  split; [apply convolve_keeps_instance|].
  now rewrite convolve_keeps_instance.
Qed.

Lemma call_value_returns (linalg_inv : np.matrix -> result np.matrix)
  (lmax0 : nat) (Mo : option np.matrix) (C_l : np.vector) (w : nat)
  (r : np.vector * np.vector) :
  call_value linalg_inv lmax0 Mo C_l w = Ok r ->
  length C_l = (lmax0 + 1)%nat /\ (0 < w)%nat /\ ((lmax0 + 1) mod w = 0)%nat
  /\ exists M t Mbb Minv Cb Cbd,
       Mo = Some M
       /\ np.matmul (block_operator (lmax0 + 1) w (1 / INR w)) M = Ok t
       /\ np.matmul t (np.transpose (block_operator (lmax0 + 1) w 1)) = Ok Mbb
       /\ linalg_inv Mbb = Ok Minv
       /\ np.dot (block_operator (lmax0 + 1) w (1 / INR w)) C_l = Ok Cb
       /\ np.vecmat Cb Minv = Ok Cbd.
Proof.
  unfold call_value.
  destruct (Nat.eqb_spec (length C_l) (lmax0 + 1)) as [Hlen|]; cbn [negb];
    [|discriminate].
  destruct (Nat.eqb_spec w 0) as [|Hw]; [discriminate|].
  destruct (Nat.eqb_spec ((lmax0 + 1) mod w) 0) as [Hm|]; cbn [negb];
    [|discriminate].
  destruct Mo as [M|]; [|discriminate]. cbv zeta.
  destruct (np.matmul (block_operator (lmax0 + 1) w (1 / INR w)) M) as [t|]
    eqn:Ht; [|discriminate].
  cbn [rbind].
  destruct (np.matmul t (np.transpose (block_operator (lmax0 + 1) w 1)))
    as [Mbb|] eqn:HMbb; [|discriminate].
  cbn [rbind]. destruct (linalg_inv Mbb) as [Minv|] eqn:Hinv; [|discriminate].
  cbn [rbind].
  destruct (np.dot (block_operator (lmax0 + 1) w (1 / INR w)) C_l) as [Cb|]
    eqn:HCb; [|discriminate].
  cbn [rbind]. destruct (np.vecmat Cb Minv) as [Cbd|] eqn:HCbd; [|discriminate].
  intros _. split; [exact Hlen|]. split; [lia|]. split; [exact Hm|].
  exists M, t, Mbb, Minv, Cb, Cbd. repeat split; assumption.
Qed.

(** X14. A call that returns assigns every attribute of the binning, so
    the instance after it, like the value returned, is the same whatever
    calls were made before: nothing of an earlier binning is left. *)
Theorem returning_call_resets_instance
  (linalg_inv : np.matrix -> result np.matrix)
  (s : MaskDeconvolution) (history : list operation)
  (C_l : np.vector) (w : nat) (r : np.vector * np.vector) :
  snd (__call__ linalg_inv C_l w s) = Ok r ->
  __call__ linalg_inv C_l w (after_all linalg_inv s history) =
  __call__ linalg_inv C_l w s.
Proof.
  intros Hr. rewrite call_refines in Hr.
  destruct (call_value_returns _ _ _ _ _ _ Hr)
    as (Hlen & Hw & Hm & M & t & Mbb & Minv & Cb & Cbd
        & HM & Ht & HMbb & Hinv & HCb & HCbd).
  destruct (frame_after_all linalg_inv history s) as (E1 & E2 & E3 & E4).
  set (s' := after_all linalg_inv s history) in *.
  assert (Hs : __call__ linalg_inv C_l w s =
               (set_Mbb_inv (Some Minv)
                  (set_binned_ells
                     (centres (lmax s + 1)
                        (block_operator (lmax s + 1) w (1 / INR w)))
                     (set_bins_no_weight (block_operator (lmax s + 1) w 1)
                        (set_bins (block_operator (lmax s + 1) w (1 / INR w))
                           (set_lperBin w s)))),
                Ok (centres (lmax s + 1)
                      (block_operator (lmax s + 1) w (1 / INR w)), Cbd)))
    by (now apply (call_returns linalg_inv s C_l w M t Mbb Minv Cb Cbd)).
  assert (Hs' : __call__ linalg_inv C_l w s' =
               (set_Mbb_inv (Some Minv)
                  (set_binned_ells
                     (centres (lmax s' + 1)
                        (block_operator (lmax s' + 1) w (1 / INR w)))
                     (set_bins_no_weight (block_operator (lmax s' + 1) w 1)
                        (set_bins (block_operator (lmax s' + 1) w (1 / INR w))
                           (set_lperBin w s')))),
                Ok (centres (lmax s' + 1)
                      (block_operator (lmax s' + 1) w (1 / INR w)), Cbd))).
  { apply (call_returns linalg_inv s' C_l w M t Mbb Minv Cb Cbd);
      rewrite ?E1, ?E4; assumption. }
  assert (Hval : r = (centres (lmax s + 1)
                        (block_operator (lmax s + 1) w (1 / INR w)), Cbd)).
  { unfold call_value in Hr.
    rewrite Hlen, Nat.eqb_refl in Hr. cbn [negb] in Hr.
    replace (w =? 0)%nat with false in Hr
      by (symmetry; apply Nat.eqb_neq; lia).
    rewrite Hm in Hr. cbn [Nat.eqb negb] in Hr. rewrite HM in Hr.
    cbv zeta in Hr. rewrite Ht in Hr. cbn [rbind] in Hr.
    rewrite HMbb in Hr. cbn [rbind] in Hr. rewrite Hinv in Hr.
    cbn [rbind] in Hr. rewrite HCb in Hr. cbn [rbind] in Hr.
    rewrite HCbd in Hr. cbn [rbind] in Hr. now injection Hr as <-. }
  rewrite Hs', Hs.
  unfold set_Mbb_inv, set_binned_ells, set_bins_no_weight, set_bins,
    set_lperBin.
  cbn [lmax W_l w3j000 Mll lperBin bins bins_no_weight binned_ells Mbb_inv fst].
  rewrite E1, E2, E3, E4. reflexivity.
Qed.

Lemma returning_call_resets_instance_witness :
  __call__ cofactor_inv [5; 7] 2
    (after_all cofactor_inv
       (mkMaskDeconvolution 1 [1; 0; 0] (threej000.Wigner3j 3)
          (Some [[1; 0]; [0; 1]]) None None None None None)
       [Deconvolve [5; 7] 1; ConvolveTheory [1; 2]; Deconvolve [1] 2])
  = __call__ cofactor_inv [5; 7] 2
      (mkMaskDeconvolution 1 [1; 0; 0] (threej000.Wigner3j 3)
         (Some [[1; 0]; [0; 1]]) None None None None None).
Proof.
  eapply (returning_call_resets_instance cofactor_inv
           (mkMaskDeconvolution 1 [1; 0; 0] (threej000.Wigner3j 3)
              (Some [[1; 0]; [0; 1]]) None None None None None)
           [Deconvolve [5; 7] 1; ConvolveTheory [1; 2]; Deconvolve [1] 2]
           [5; 7] 2).
  rewrite call_refines. unfold call_value, cofactor_inv. cbn.
  match goal with |- context [Req_dec_T ?x 0] =>
    destruct (Req_dec_T x 0) as [E|E]; [exfalso; lra|]
  end.
  reflexivity.
Defined.

(** ** The bin widths that can be used *)

(** X15. [init_binning] returns exactly when the bin width is positive
    and divides [lmax + 1]; it raises [ZeroDivisionError] for a width of
    zero and [IndexError] for every other width. *)
Theorem init_binning_returns_iff (s : MaskDeconvolution) (w : nat) :
  (snd (init_binning (set_lperBin w s)) = Ok tt
   <-> (0 < w)%nat /\ ((lmax s + 1) mod w = 0)%nat)
  /\ (snd (init_binning (set_lperBin w s)) = Raise ZeroDivisionError
      <-> w = 0%nat)
  /\ (snd (init_binning (set_lperBin w s)) = Raise IndexError
      <-> (0 < w)%nat /\ ((lmax s + 1) mod w <> 0)%nat).
Proof.
  destruct (Nat.eq_dec w 0) as [->|Hw].
  - rewrite init_binning_zero. cbn [snd].
    intuition (try discriminate; try lia; try congruence).
  - destruct (Nat.eq_dec ((lmax s + 1) mod w) 0) as [Hm|Hm].
    + rewrite (init_binning_ok s w ltac:(lia) Hm). cbn [snd].
      intuition (try discriminate; try lia; try congruence).
    + rewrite (init_binning_overshoot s w ltac:(lia) Hm). cbn [snd].
      intuition (try discriminate; try lia; try congruence).
Qed.

(** ** The coupling matrix as a function of the window *)

Lemma coupling_sum_scale (w : nat -> nat -> nat -> R) (Wf : nat -> R)
  (c : R) (l1 l2 : nat) :
  coupling_sum w (fun l => c * Wf l) l1 l2 = c * coupling_sum w Wf l1 l2.
Proof.
  unfold coupling_sum. rewrite sum_map_scale. apply sum_map_ext.
  intros l3 _. unfold coupling_term. ring.
Qed.

(** X16. The coupling matrix is linear in the window: on two instances
    with the same [lmax] and 3j provider, whose windows differ by the
    factor [c], the matrices differ by the factor [c]. *)
Theorem coupling_matrix_scales_with_window (s1 s2 : MaskDeconvolution)
  (c : R) :
  lmax s2 = lmax s1 -> w3j000 s2 = w3j000 s1 ->
  W_l s2 = map (fun x => c * x) (W_l s1) ->
  (2 * lmax s1 + 1 <= length (W_l s1))%nat ->
  exists M1 M2,
    get_M false s1 = (s1, Ok M1)
    /\ get_M false s2 = (s2, Ok M2)
    /\ forall l1 l2, (l1 <= lmax s1)%nat -> (l2 <= lmax s1)%nat ->
         entry M2 l1 l2 = c * entry M1 l1 l2.
Proof.
  intros Hl Hw HW Hpad.
  destruct (get_M_entries s1 false (window s1)) as (M1 & HM1 & _ & HE1).
  { intros l Hll. apply W_in_range. lia. }
  destruct (get_M_entries s2 false (fun l => c * window s1 l))
    as (M2 & HM2 & _ & HE2).
  { intros l Hll. rewrite W_in_range by (rewrite HW, length_map; lia).
    unfold window. rewrite HW.
    pose proof (map_nth (fun x => c * x) (W_l s1) 0 l) as Hn.
    cbv beta in Hn. rewrite Rmult_0_r in Hn. now rewrite Hn. }
  exists M1, M2. split; [exact HM1|]. split; [exact HM2|].
  intros l1 l2 H1 H2.
  rewrite (HE2 l1 l2) by lia. rewrite (HE1 l1 l2 H1 H2).
  rewrite Hw, coupling_sum_scale. unfold Rdiv. ring.
Qed.

Lemma coupling_matrix_scales_with_window_witness :
  exists M1 M2,
    get_M false (mkMaskDeconvolution 1 [1; 2; 3] (threej000.Wigner3j 3)
                   None None None None None None)
    = (mkMaskDeconvolution 1 [1; 2; 3] (threej000.Wigner3j 3)
         None None None None None None, Ok M1)
    /\ get_M false (mkMaskDeconvolution 1 [2 * 1; 2 * 2; 2 * 3]
                      (threej000.Wigner3j 3) None None None None None None)
       = (mkMaskDeconvolution 1 [2 * 1; 2 * 2; 2 * 3] (threej000.Wigner3j 3)
            None None None None None None, Ok M2)
    /\ forall l1 l2, (l1 <= 1)%nat -> (l2 <= 1)%nat ->
         entry M2 l1 l2 = 2 * entry M1 l1 l2.
Proof.
  apply (coupling_matrix_scales_with_window
           (mkMaskDeconvolution 1 [1; 2; 3] (threej000.Wigner3j 3)
              None None None None None None)
           (mkMaskDeconvolution 1 [2 * 1; 2 * 2; 2 * 3] (threej000.Wigner3j 3)
              None None None None None None) 2).
  - reflexivity.
  - reflexivity.
  - reflexivity.
  - simpl. lia.
Defined.

(** ** The first bin of the ['sqrt'] binning *)

Lemma sqrt_8_bounds : 2 < sqrt 8 < 3.
Proof.
  assert (H2 : sqrt 4 = 2)
    by (replace 4 with (2 * 2) by lra; apply sqrt_square; lra).
  assert (H3 : sqrt 9 = 3)
    by (replace 9 with (3 * 3) by lra; apply sqrt_square; lra).
  split.
  - rewrite <- H2. apply sqrt_lt_1_alt. lra.
  - rewrite <- H3. apply sqrt_lt_1_alt. lra.
Qed.

Lemma dell_sqrt_first (step : nat) :
  Z.to_nat (ceil (sqrt (4 * INR 2) + INR step)) = (step + 3)%nat.
Proof.
  replace (4 * INR 2) with 8 by (simpl; lra).
  destruct sqrt_8_bounds as [Hlo Hhi].
  destruct (ceil_bounds (sqrt 8 + INR step)) as [Hge Hlt].
  rewrite INR_IZR_INZ in Hge, Hlt.
  assert (H1 : (Z.of_nat step + 2 < ceil (sqrt 8 + IZR (Z.of_nat step)))%Z).
  { apply lt_IZR. rewrite plus_IZR. lra. }
  assert (H2 : (ceil (sqrt 8 + IZR (Z.of_nat step)) < Z.of_nat step + 4)%Z).
  { apply lt_IZR. rewrite plus_IZR. lra. }
  rewrite INR_IZR_INZ. lia.
Qed.

(** X17. For the type ['sqrt'] and a non-negative [step] the first bin has
    the width [step + 3], the ceiling of [sqrt 8 + step]: the result has no
    row exactly when [lmax < step + 4], and otherwise its first row has the
    weight [1 / (step + 3)] on the multipoles from 2 to [step + 4]. *)
Theorem binning_matrix_sqrt_first_bin (step : nat) (s : MaskDeconvolution) :
  exists B,
    binning_matrix "sqrt" step s = Some (inl B)
    /\ (length B = 0%nat <-> (lmax s < step + 4)%nat)
    /\ ((0 < length B)%nat ->
        forall l,
          entry B 0 l =
          if ((2 <=? l) && (l <=? step + 4))%nat
          then 1 / INR (step + 3) else 0).
Proof.
  destruct (binning_matrix_spans "sqrt" step s
              (fun ell => Z.to_nat (ceil (sqrt (4 * INR ell) + INR step)))
              eq_refl) as (n & HB & Hall & Hout).
  { intros l Hl. apply dell_sqrt_pos. lia. }
  eexists. split; [exact HB|].
  rewrite length_map, length_seq. split.
  - split; intros H.
    + subst n. cbn [edge] in Hout. rewrite dell_sqrt_first in Hout. lia.
    + destruct n as [|n]; [reflexivity|].
      specialize (Hall 0%nat ltac:(lia)). cbn [edge] in Hall.
      rewrite dell_sqrt_first in Hall. lia.
  - intros Hn l. unfold entry. rewrite nth_span by exact Hn.
    cbn [edge]. rewrite dell_sqrt_first. unfold span_row. rewrite nth_block.
    repeat match goal with
      | |- context [(?a <=? ?b)%nat] => destruct (Nat.leb_spec a b)
      | |- context [(?a <? ?b)%nat] => destruct (Nat.ltb_spec a b)
      end; cbn [andb]; try reflexivity; exfalso; lia.
Qed.
